(** * bilby.core.utils.calculus: numerical primitives

    A shallow embedding of [bilby/core/utils/calculus.py]:
    - [GradientEstimator.derivatives]   (adaptive central differences),
    - [LogDomainIntegrator.logtrapzexp] (log-domain trapezium rule),
    - [SurfaceEvaluator.__call__]       ([UnsortedInterp2d]).

    Python floats and numpy [float64] values are IEEE binary64 numbers and are
    embedded as Rocq's primitive [float]; the integrator, whose only numeric
    content is the identity between logarithms, is embedded over [R], in
    exact arithmetic, and its facts are stated for positive steps.
    Raising functions return a result together with the list of observable
    events (objective evaluations, library calls, log records) they have
    produced so far. *)

From Stdlib Require Import ZArith Floats String Reals Lra Lia Bool.
From Stdlib Require Import DecimalString.
From stdpp Require Import base list.

Set Default Proof Using "Type".
Set Warnings "-inexact-float".
Local Open Scope Z_scope.

(** ** Python exceptions and the event-recording error monad *)

Module Py.

Inductive exn : Type :=
| ValueError (msg : string)
| RuntimeError (msg : string)
| TypeError (msg : string)
| IndexError (msg : string).

(** The outcome of running a piece of code: a value, a raised exception, or
    a loop that has not finished within the iterations allowed to it. *)
Inductive res (A : Type) : Type :=
| Ok (a : A)
| Raise (e : exn)
| Fuel.
Arguments Ok {A} a.
Arguments Raise {A} e.
Arguments Fuel {A}.

(** A computation: its outcome and the events it emitted, oldest first. *)
Definition W (E A : Type) : Type := (res A * list E)%type.

Definition ret {E A} (a : A) : W E A := (Ok a, []).
Definition raise {E A} (e : exn) : W E A := (Raise e, []).
Definition emit {E} (ev : E) : W E unit := (Ok tt, [ev]).
Definition out_of_fuel {E A} : W E A := (Fuel, []).

Definition bind {E A B} (m : W E A) (k : A -> W E B) : W E B :=
  match m with
  | (Ok a, evs) => let '(r, evs') := k a in (r, evs ++ evs')
  | (Raise e, evs) => (Raise e, evs)
  | (Fuel, evs) => (Fuel, evs)
  end.

(** The spec's [InvalidArgument] kind is realised in the source by the
    exception classes its validation code raises. *)
Definition InvalidArgument (e : exn) : Prop :=
  match e with
  | ValueError _ | RuntimeError _ | TypeError _ => True
  | IndexError _ => False
  end.

End Py.
Import Py.

Notation "x <- c1 ;; c2" := (bind c1 (fun x => c2))
  (at level 100, c1 at next level, right associativity).
Notation "c1 ;;; c2" := (bind c1 (fun _ => c2))
  (at level 100, right associativity).

(** ** The gradient estimator: [derivatives] *)

Module GradientEstimator.

Local Open Scope float_scope.

(** What a caller may pass as [releps] or [abseps]: a Python [float], a
    [list] or [numpy.ndarray] of floats, or an object of any other type. *)
Inductive step_arg : Type :=
| PyFloat (x : float)
| PyList (xs : list float)
| PyOther.

Inductive event : Type :=
| EvalFunc (args : list float)
| LogWarning (msg : string).

Definition M := W event.

(** [range(n)] *)
Definition range (n : nat) : list Z := map Z.of_nat (seq 0 n).

(** The builtins [max] and [min], which raise on an empty sequence. *)
Definition py_max (l : list Z) : M Z :=
  match l with
  | [] => raise (ValueError "max() arg is an empty sequence")
  | i :: l' => ret (fold_left Z.max l' i)
  end.

Definition py_min (l : list Z) : M Z :=
  match l with
  | [] => raise (ValueError "min() arg is an empty sequence")
  | i :: l' => ret (fold_left Z.min l' i)
  end.

(** [a[i]] for an integer index; a negative index counts from the end. *)
Definition py_index {A} (l : list A) (i : Z) : option nat :=
  let n := Z.of_nat (length l) in
  let j := if (i <? 0)%Z then (i + n)%Z else i in
  if (0 <=? j)%Z && (j <? n)%Z then Some (Z.to_nat j) else None.

Definition getitem (l : list float) (i : Z) : M float :=
  match py_index l i with
  | Some j =>
      match l !! j with
      | Some v => ret v
      | None => raise (IndexError "index out of range")
      end
  | None => raise (IndexError "index out of range")
  end.

(** [a[i] = f(a[i])], the shape of [a[i] += d] and [a[i] -= d]. *)
Definition moditem (f : float -> float) (l : list float) (i : Z) : M (list float) :=
  v <- getitem l i ;;
  match py_index l i with
  | Some j => ret (<[j := f v]> l)
  | None => raise (IndexError "index out of range")
  end.

Definition setitem (l : list float) (i : Z) (v : float) : M (list float) :=
  moditem (fun _ => v) l i.

(** The "set steps" block (lines 69-91): the absolute half-steps [eps] and
    the tracking scales [teps]. *)
Definition set_steps (vals : list float) (releps : step_arg)
    (abseps : option step_arg) : M (list float * list float) :=
  match abseps with
  | None =>
      match releps with
      | PyFloat r =>
          let eps := map (fun v => abs v * r) vals in
          let eps := map (fun e => if e =? 0 then r else e) eps in
          let teps := map (fun o => r * o) (repeat 1 (length vals)) in
          ret (eps, teps)
      | PyList rs =>
          if negb (length rs =? length vals)%nat
          then raise (ValueError "Problem with input relative step sizes")
          else
            let eps := zip_with mul (map abs vals) rs in
            let eps := zip_with (fun e r => if e =? 0 then r else e) eps rs in
            ret (eps, rs)
      | PyOther =>
          raise (RuntimeError "Relative step sizes are not a recognised type!")
      end
  | Some (PyFloat a) =>
      let eps := map (fun o => a * o) (repeat 1 (length vals)) in
      ret (eps, eps)
  | Some (PyList az) =>
      if negb (length az =? length vals)%nat
      then raise (ValueError "Problem with input absolute step sizes")
      else ret (az, az)
  | Some PyOther =>
      raise (RuntimeError "Absolute step sizes are not a recognised type!")
  end.

(** Lines 54-91: everything [derivatives] does before its [for] loop.  The
    allocation [grads = np.zeros(len(nonfixedidx))] of line 63 has no effect
    on the checks and is made by [derivatives] below. *)
Definition prevalidation (vals : list float) (releps : step_arg)
    (abseps : option step_arg) (nonfixedidx : option (list Z))
  : M (list Z * list float * list float) :=
  let nonfixedidx :=
    match nonfixedidx with
    | None => range (length vals)
    | Some l => l
    end in
  if (length vals <? length nonfixedidx)%nat
  then raise (ValueError "To many non-fixed values")
  else
    mx <- py_max nonfixedidx ;;
    bad <- (if (Z.of_nat (length vals) <=? mx)%Z then ret true
            else mn <- py_min nonfixedidx ;; ret (mn <? 0)%Z) ;;
    if (bad : bool)
    then raise (ValueError "Non-fixed indexes contain non-existent indices")
    else
      steps <- set_steps vals releps abseps ;;
      ret (nonfixedidx, fst steps, snd steps).

(** The variables of one run of the [while] loop. *)
Record loop_state : Type := LoopState {
  leps : float;
  cureps : float;
  flipflop : Z;
  fvals : list float;
  bvals : list float;
  cdiff : float
}.

Definition flipflopmax : Z := 10.

Definition no_convergence : string :=
  "Derivative calculation did not converge: setting flat derivative.".

Section Loop.

Variable func : list float -> float.
Variables mineps reltol epsscale : float.

Definition call_func (v : list float) : M float :=
  emit (EvalFunc v) ;;; ret (func v).

(** The central difference around [i] with half-step [0.5 * leps], taken
    from the unperturbed vectors [fv] and [bv]. *)
Definition central_difference (i : Z) (leps : float) (fv bv : list float)
  : M (list float * list float * float) :=
  fv <- moditem (fun v => v + 0.5 * leps) fv i ;;
  bv <- moditem (fun v => v - 0.5 * leps) bv i ;;
  ff <- call_func fv ;;
  fb <- call_func bv ;;
  ret (fv, bv, (ff - fb) / leps).

(** The loop gives up when the shrunk tracking scale is below [mineps] or
    the gradient has changed sign more than [flipflopmax] times. *)
Definition gives_up (st : loop_state) : bool :=
  (cureps st * epsscale <? mineps) || (flipflopmax <? flipflop st)%Z.

(** The verdict on a recomputed difference (lines 131-148): [inl g] stores
    [g] in [grads[count]] and breaks; [inr (c, ff)] continues with
    [cdiff = c] and [flipflop = ff]. *)
Definition judge (cdiff cdiffnew : float) (flipflop : Z) : float + float * Z :=
  if cdiffnew =? cdiff then inl cdiff
  else
    let rat := cdiff / cdiffnew in
    if is_finite rat && (0 <? rat) then
      if abs (1 - rat) <? reltol then inl cdiffnew
      else inr (cdiffnew, flipflop)
    else inr (cdiffnew, (flipflop + 1)%Z).

(** One pass through the body of [while 1] (lines 112-148). *)
Definition body (i : Z) (st : loop_state) : M (float + loop_state) :=
  fv <- moditem (fun v => v - 0.5 * leps st) (fvals st) i ;;
  bv <- moditem (fun v => v + 0.5 * leps st) (bvals st) i ;;
  let cureps' := cureps st * epsscale in
  if gives_up st then
    emit (LogWarning no_convergence) ;;;
    ret (inl 0)
  else
    let leps' := leps st * epsscale in
    cd <- central_difference i leps' fv bv ;;
    let '(fv, bv, cdiffnew) := cd in
    match judge (cdiff st) cdiffnew (flipflop st) with
    | inl g => ret (inl g)
    | inr (c, ff) => ret (inr (LoopState leps' cureps' ff fv bv c))
    end.

Fixpoint while_loop (fuel : nat) (i : Z) (st : loop_state) : M float :=
  match fuel with
  | O => out_of_fuel
  | S fuel' =>
      r <- body i st ;;
      match r with
      | inl g => ret g
      | inr st' => while_loop fuel' i st'
      end
  end.

(** Lines 96-109: the state in which the [while] loop is entered. *)
Definition start (vals eps teps : list float) (i : Z) : M loop_state :=
  leps <- getitem eps i ;;
  cureps <- getitem teps i ;;
  cd <- central_difference i leps vals vals ;;
  let '(fv, bv, cdiff) := cd in
  ret (LoopState leps cureps 0 fv bv cdiff).

(** One round of the [for] loop: the gradient component of index [i]. *)
Definition component (fuel : nat) (vals eps teps : list float) (i : Z) : M float :=
  st <- start vals eps teps i ;;
  while_loop fuel i st.

Fixpoint for_loop (fuel : nat) (vals eps teps : list float) (idx : list Z)
    (grads : list float) (count : nat) : M (list float) :=
  match idx with
  | [] => ret grads
  | i :: idx' =>
      g <- component fuel vals eps teps i ;;
      grads <- setitem grads (Z.of_nat count) g ;;
      for_loop fuel vals eps teps idx' grads (S count)
  end.

(** [derivatives]; [fuel] bounds the passes of each [while] loop. *)
Definition derivatives (fuel : nat) (vals : list float) (releps : step_arg)
    (abseps : option step_arg) (nonfixedidx : option (list Z)) : M (list float) :=
  pre <- prevalidation vals releps abseps nonfixedidx ;;
  let '(idx, eps, teps) := pre in
  let grads := repeat 0 (length idx) in
  for_loop fuel vals eps teps idx grads 0.

End Loop.

(** *** The claims' vocabulary *)

(** The index set the call works on, and the step argument it looks at:
    [abseps] overrides [releps] when it is given. *)
Definition index_set (vals : list float) (nonfixedidx : option (list Z)) : list Z :=
  match nonfixedidx with
  | None => range (length vals)
  | Some l => l
  end.

Definition active_step (releps : step_arg) (abseps : option step_arg) : step_arg :=
  match abseps with
  | None => releps
  | Some a => a
  end.

(** The errors the validation code can raise. *)
Definition validation_errors : list exn :=
  [ ValueError "To many non-fixed values";
    ValueError "max() arg is an empty sequence";
    ValueError "Non-fixed indexes contain non-existent indices";
    ValueError "Problem with input relative step sizes";
    RuntimeError "Relative step sizes are not a recognised type!";
    ValueError "Problem with input absolute step sizes";
    RuntimeError "Absolute step sizes are not a recognised type!" ].

Inductive invalid_input (vals : list float) (releps : step_arg)
    (abseps : option step_arg) (nonfixedidx : option (list Z)) : Prop :=
| too_many_indices :
    (length vals < length (index_set vals nonfixedidx))%nat ->
    invalid_input vals releps abseps nonfixedidx
| index_out_of_range (i : Z) :
    i ∈ index_set vals nonfixedidx ->
    (i < 0 \/ Z.of_nat (length vals) <= i)%Z ->
    invalid_input vals releps abseps nonfixedidx
| step_length_mismatch (xs : list float) :
    active_step releps abseps = PyList xs ->
    length xs <> length vals ->
    invalid_input vals releps abseps nonfixedidx
| step_not_recognised :
    active_step releps abseps = PyOther ->
    invalid_input vals releps abseps nonfixedidx.

(** The entry of a relative step argument that belongs to index [i]. *)
Definition releps_at (releps : step_arg) (i : nat) : option float :=
  match releps with
  | PyFloat r => Some r
  | PyList rs => rs !! i
  | PyOther => None
  end.


(** The states the [while] loop of index [i] passes through. *)
Inductive runs (func : list float -> float) (mineps reltol epsscale : float)
    (i : Z) : loop_state -> loop_state -> Prop :=
| runs_here st : runs func mineps reltol epsscale i st st
| runs_on st st1 st2 evs :
    body func mineps reltol epsscale i st = (Ok (inr st1), evs) ->
    runs func mineps reltol epsscale i st1 st2 ->
    runs func mineps reltol epsscale i st st2.

Definition reaches (func : list float -> float) (mineps reltol epsscale : float)
    (vals eps teps : list float) (i : Z) (st : loop_state) : Prop :=
  exists st0 evs,
    start func vals eps teps i = (Ok st0, evs) /\
    runs func mineps reltol epsscale i st0 st.

(** [a[i] = f(a[i])] on an index known to be in range. *)
Definition perturb (f : float -> float) (i : Z) (l : list float) : list float :=
  alter f (Z.to_nat i) l.

Definition in_range (vals : list float) (i : Z) : Prop :=
  (0 <= i < Z.of_nat (length vals))%Z.

(** The index can be perturbed in both vectors of the state. *)
Definition fits (i : Z) (st : loop_state) : Prop :=
  in_range (fvals st) i /\ in_range (bvals st) i.

(** The points at which the shrunk central difference is taken, and the
    difference itself: the old half-step is removed, the new one applied. *)
Definition shrunk_fvals (epsscale : float) (i : Z) (st : loop_state) : list float :=
  perturb (fun v => v + 0.5 * (leps st * epsscale)) i
    (perturb (fun v => v - 0.5 * leps st) i (fvals st)).

Definition shrunk_bvals (epsscale : float) (i : Z) (st : loop_state) : list float :=
  perturb (fun v => v - 0.5 * (leps st * epsscale)) i
    (perturb (fun v => v + 0.5 * leps st) i (bvals st)).

Definition shrunk_difference (func : list float -> float) (epsscale : float)
    (i : Z) (st : loop_state) : float :=
  (func (shrunk_fvals epsscale i st) - func (shrunk_bvals epsscale i st))
  / (leps st * epsscale).



End GradientEstimator.

(** ** The log-domain integrator: [logtrapzexp] *)

Module LogDomainIntegrator.

Local Open Scope R_scope.

(** What a caller may pass as [dx]: a number ([int] or [float]), a [list]
    or [numpy.ndarray], or an object of any other type. *)
Inductive step_arg : Type :=
| StepScalar (dx : R)
| StepSeq (dx : list R)
| StepOther.

Inductive event : Type :=
| LogSumExp (a : list R).

Definition M := W event.

Definition amax (a : list R) : R :=
  match a with
  | [] => 0
  | x :: a' => fold_left Rmax a' x
  end.

Definition sum (a : list R) : R := fold_right Rplus 0 a.

(** Modelled from the spec: [scipy.special.logsumexp] is a library function
    outside the repository; section 4.2 fixes it as the logarithm of the sum
    of exponentials computed with the max-shift technique. *)
Definition logsumexp_value (a : list R) : R :=
  let a_max := amax a in
  ln (sum (map (fun x => exp (x - a_max)) a)) + a_max.

Definition logsumexp (a : list R) : M R :=
  emit (LogSumExp a) ;;; ret (logsumexp_value a).

(** The slices [lnf[:-1]] and [lnf[1:]]. *)
Definition all_but_last (lnf : list R) : list R := take (length lnf - 1) lnf.
Definition all_but_first (lnf : list R) : list R := drop 1 lnf.

(** The embedding is in exact arithmetic over the reals.  It describes the
    call on at least two samples with positive steps, where every logarithm
    is taken of a positive number and no slice is empty.  A zero or negative
    step takes [np.log] out of the reals (to [-inf] or [nan]) and an empty
    slice makes [logsumexp] raise: the value computed below says nothing
    about those calls, and the facts proved of it assume positive steps and
    two samples.  The two checks that raise are as in the code for every
    input. *)
Definition logtrapzexp (lnf : list R) (dx : step_arg) : M R :=
  let lnfdx1 := all_but_last lnf in
  let lnfdx2 := all_but_first lnf in
  match dx with
  | StepScalar dx =>
      let C := ln (dx / 2) in
      s1 <- logsumexp lnfdx1 ;;
      s2 <- logsumexp lnfdx2 ;;
      s <- logsumexp [s1; s2] ;;
      ret (C + s)
  | StepSeq dx =>
      if negb (Z.of_nat (length dx) =? Z.of_nat (length lnf) - 1)%Z
      then raise (ValueError
        "Step size array must have length one less than the function length")
      else
        let lndx := map ln dx in
        let lnfdx1 := zip_with Rplus lnfdx1 lndx in
        let lnfdx2 := zip_with Rplus lnfdx2 lndx in
        let C := - ln 2 in
        s1 <- logsumexp lnfdx1 ;;
        s2 <- logsumexp lnfdx2 ;;
        s <- logsumexp [s1; s2] ;;
        ret (C + s)
  | StepOther =>
      raise (TypeError "Step size must be a single value or array-like")
  end.


End LogDomainIntegrator.

(** ** The surface evaluator: [UnsortedInterp2d] *)

Module SurfaceEvaluator.

Local Open Scope float_scope.

(** A [numpy.ndarray] of floats (dtype [float64]): its shape and its
    entries in row-major order.  Arrays of another dtype are not described:
    an integer array passed as [x] with a number as [y] keeps its dtype up
    to [np.empty_like(x)], and the output then holds integers. *)
Record ndarray : Type := NDArray {
  shape : list nat;
  data : list float
}.

Definition product (s : list nat) : nat := fold_right Nat.mul 1%nat s.
Definition ndim (a : ndarray) : nat := length (shape a).
Definition size (a : ndarray) : nat := product (shape a).
Definition well_formed (a : ndarray) : Prop := length (data a) = size a.

(** A query argument: a Python number or an array. *)
Inductive pyval : Type :=
| Num (v : float)
| Arr (a : ndarray).

Inductive event : Type :=
| Bispeu (xs ys : list float).

Definition M := W event.

(** [float(a)] for an array with one entry. *)
Definition item (a : ndarray) : float :=
  match data a with
  | v :: _ => v
  | [] => nan
  end.

(** [np.expand_dims(a, -1)] *)
Definition expand_dims_last (a : ndarray) : ndarray :=
  NDArray (shape a ++ [1%nat]) (data a).

(** [while n > a.ndim: a = np.expand_dims(a, -1)]; the loop runs at most
    [n] times. *)
Fixpoint expand_while_below (fuel n : nat) (a : ndarray) : ndarray :=
  match fuel with
  | O => a
  | S fuel' =>
      if (ndim a <? n)%nat then expand_while_below fuel' n (expand_dims_last a)
      else a
  end.

(** numpy's broadcasting rule on two shapes read from their last axis. *)
Definition broadcast_dim (a b : nat) : option nat :=
  if (a =? b)%nat then Some a
  else if (a =? 1)%nat then Some b
  else if (b =? 1)%nat then Some a
  else None.

Fixpoint broadcast_rev (s t : list nat) : option (list nat) :=
  match s, t with
  | [], _ => Some t
  | _, [] => Some s
  | a :: s', b :: t' =>
      match broadcast_dim a b, broadcast_rev s' t' with
      | Some d, Some r => Some (d :: r)
      | _, _ => None
      end
  end.

Definition broadcast_shapes (s t : list nat) : option (list nat) :=
  match broadcast_rev (reverse s) (reverse t) with
  | Some r => Some (reverse r)
  | None => None
  end.

Fixpoint chunks (k n : nat) (d : list float) : list (list float) :=
  match k with
  | O => []
  | S k' => take n d :: chunks k' n (drop n d)
  end.

(** The entries of an array of shape [s] viewed with shape [t], where the
    two shapes have equal rank and each axis of [s] equals that of [t] or
    is 1. *)
Fixpoint stretch (s t : list nat) (d : list float) {struct s} : list float :=
  match s, t with
  | a :: s', b :: t' =>
      if (a =? b)%nat
      then concat (map (stretch s' t') (chunks a (product s') d))
      else concat (replicate b (stretch s' t' d))
  | _, _ => d
  end.

Definition broadcast_to (a : ndarray) (t : list nat) : list float :=
  stretch (replicate (length t - ndim a) 1%nat ++ shape a) t (data a).

(** [a * np.ones(t)]; [None] when numpy cannot broadcast the operands. *)
Definition mul_ones (a : ndarray) (t : list nat) : option ndarray :=
  match broadcast_shapes (shape a) t with
  | Some r => Some (NDArray r (map (fun v => v * 1) (broadcast_to a r)))
  | None => None
  end.

(** [v * np.ones_like(a)] *)
Definition ones_like (a : ndarray) : ndarray :=
  NDArray (shape a) (map (fun _ => 1) (data a)).

Definition scalar_mul (v : float) (a : ndarray) : ndarray :=
  NDArray (shape a) (map (fun o => v * o) (data a)).

(** [repr] of a shape tuple and of the pair [original_shapes]. *)
Definition repr_nat (n : nat) : string := NilEmpty.string_of_uint (Nat.to_uint n).

Definition repr_shape (s : list nat) : string :=
  match s with
  | [] => "()"
  | [n] => "(" ++ repr_nat n ++ ",)"
  | _ => "(" ++ String.concat ", " (map repr_nat s) ++ ")"
  end.

Definition repr_shapes (p : list nat * list nat) : string :=
  "(" ++ repr_shape (fst p) ++ ", " ++ repr_shape (snd p) ++ ")".

Definition incompatible (original_shapes : list nat * list nat) : exn :=
  ValueError ("UnsortedInterp2d received incompatibly shaped arrays: "
              ++ repr_shapes original_shapes).

(** Lines 242-245: an array with a single entry becomes a float. *)
Definition collapse (x : pyval) : pyval :=
  match x with
  | Arr a => if (size a =? 1)%nat then Num (item a) else x
  | Num _ => x
  end.

Definition _sanitize_inputs (x y : pyval) : M (pyval * pyval) :=
  let x := collapse x in
  let y := collapse y in
  match x, y with
  | Arr a, Arr b =>
      let original_shapes := (shape a, shape b) in
      let '(a, b) :=
        if bool_decide (shape a = shape b) then (a, b)
        else
          let b := expand_while_below (ndim a) (ndim a) b in
          let a := expand_while_below (ndim b) (ndim b) a in
          (a, b) in
      match mul_ones a (shape b) with
      | None => raise (incompatible original_shapes)
      | Some a =>
          match mul_ones b (shape a) with
          | None => raise (incompatible original_shapes)
          | Some b => ret (Arr a, Arr b)
          end
      end
  | Arr a, Num v => ret (Arr a, Arr (scalar_mul v (ones_like a)))
  | Num u, Arr b => ret (Arr (scalar_mul u (ones_like b)), Arr b)
  | Num _, Num _ => ret (x, y)
  end.

(** A fitted surface: its domain and fill value; the spline itself is the
    section variable [spline] below. *)
Record interp2d : Type := Interp2d {
  x_min : float;
  x_max : float;
  y_min : float;
  y_max : float;
  fill_value : float
}.

(** [a[mask]] *)
Fixpoint select (mask : list bool) (l : list float) : list float :=
  match mask, l with
  | m :: mask', v :: l' => if m then v :: select mask' l' else select mask' l'
  | _, _ => []
  end.

(** [out[mask] = v] and [out[mask] = vs] *)
Definition fill_where (mask : list bool) (v : float) (out : list float) : list float :=
  zip_with (fun (m : bool) o => if m then v else o) mask out.

Fixpoint assign_where (mask : list bool) (vs out : list float) : list float :=
  match mask, out with
  | m :: mask', o :: out' =>
      if m then
        match vs with
        | v :: vs' => v :: assign_where mask' vs' out'
        | [] => o :: assign_where mask' [] out'
        end
      else o :: assign_where mask' vs out'
  | _, _ => []
  end.

(** The view of a query argument as an array (a number is a 0-d array). *)
Definition as_array (x : pyval) : ndarray :=
  match x with
  | Num v => NDArray [] [v]
  | Arr a => a
  end.

Section Call.

(** Modelled from the spec: [scipy.interpolate.dfitpack.bispeu] is a library
    routine outside the repository.  Applied to the fitted coefficients
    [tck] it evaluates the spline at the paired points [(xs[k], ys[k])] and
    reports a status [ier]; [spline] is the fitted surface and [ier_of] the
    status. *)
Variable spline : float -> float -> float.
Variable ier_of : list float -> list float -> Z.

(** The contents of a freshly allocated [np.empty_like] array. *)
Variable uninitialised : float.

Variable self : interp2d.

Definition bispeu (xs ys : list float) : M (list float * Z) :=
  emit (Bispeu xs ys) ;;; ret (zip_with spline xs ys, ier_of xs ys).

Definition out_of_bounds (x y : float) : bool :=
  ((x <? x_min self) || (x_max self <? x))
  || ((y <? y_min self) || (y_max self <? y)).

(** Lines 234-238. *)
Definition check_ier (ier : Z) (output : pyval) : M pyval :=
  if (ier =? 10)%Z then raise (ValueError "Invalid input data")
  else if negb (ier =? 0)%Z then raise (TypeError "An error occurred")
  else ret output.

(** [np.empty_like(x)] for an array of floats: an array of floats of the
    same shape. *)
Definition empty_like (a : ndarray) : ndarray :=
  NDArray (shape a) (map (fun _ => uninitialised) (data a)).

Definition __call__ (x y : pyval) : M pyval :=
  xy <- _sanitize_inputs x y ;;
  match xy with
  | (Num x, Num y) =>
      let bad := out_of_bounds x y in
      if bad then check_ier 0 (Num (fill_value self))
      else
        r <- bispeu [x] [y] ;;
        let '(output, ier) := r in
        check_ier ier (Num (item (NDArray [] output)))
  | (x, y) =>
      let x := as_array x in
      let y := as_array y in
      let bad := zip_with out_of_bounds (data x) (data y) in
      let output := empty_like x in
      let output := NDArray (shape output) (fill_where bad (fill_value self) (data output)) in
      let good := map negb bad in
      if existsb negb bad then
        r <- bispeu (select good (data x)) (select good (data y)) ;;
        let '(zs, ier) := r in
        let output := NDArray (shape output) (assign_where good zs (data output)) in
        check_ier ier (Arr output)
      else check_ier 0 (Arr output)
  end.

(** *** The claims' vocabulary *)

(** The value the evaluator gives to one reconciled point. *)
Definition point_value (x y : float) : float :=
  if out_of_bounds x y then fill_value self else spline x y.

(** The points of a reconciled query that lie in the domain. *)
Definition in_bounds_mask (xs ys : list float) : list bool :=
  map negb (zip_with out_of_bounds xs ys).

(** The outcome of the status check of lines 234-238. *)
Definition checked (ier : Z) (output : pyval) : res pyval :=
  fst (check_ier ier output).

(** The status [ier] with which the check is entered: that of the single
    batched call on the in-bounds points, or 0 when there are none. *)
Definition final_status (xs ys : list float) : Z :=
  if existsb negb (zip_with out_of_bounds xs ys)
  then ier_of (select (in_bounds_mask xs ys) xs) (select (in_bounds_mask xs ys) ys)
  else 0%Z.

(** The calls made to the spline evaluator. *)
Definition spline_calls (xs ys : list float) : list event :=
  if existsb negb (zip_with out_of_bounds xs ys)
  then [Bispeu (select (in_bounds_mask xs ys) xs) (select (in_bounds_mask xs ys) ys)]
  else [].

End Call.

(** A shape padded on the right with axes of length 1 up to rank [n]. *)
Definition right_padded (n : nat) (s : list nat) : list nat :=
  s ++ replicate (n - length s) 1%nat.

(** An axis of the first shape agrees with the second or has length 1. *)
Definition stretches_to (s t : list nat) : Prop :=
  Forall2 (fun a b => a = b \/ a = 1%nat) s t.

Definition is_number (x : pyval) : bool :=
  match x with
  | Num _ => true
  | Arr _ => false
  end.

Definition well_formed_arg (x : pyval) : Prop :=
  match x with
  | Num _ => True
  | Arr a => well_formed a
  end.

(** The shape of the reconciled query: none when both arguments are
    numbers after the collapse of single-entry arrays or when the shapes
    cannot be broadcast, the shape of the array when there is one, and the
    broadcast of the right-padded shapes when there are two. *)
Definition reconciled_shape (x y : pyval) : option (list nat) :=
  match collapse x, collapse y with
  | Num _, Num _ => None
  | Arr a, Num _ => Some (shape a)
  | Num _, Arr b => Some (shape b)
  | Arr a, Arr b =>
      broadcast_shapes (right_padded (ndim b) (shape a))
                       (right_padded (ndim a) (shape b))
  end.

(** numpy's broadcasting rule on two shapes of equal rank, axis by axis:
    the lengths agree or one of them is 1, and the broadcast axis has the
    length that is not 1. *)
Definition compatible (s t : list nat) : Prop :=
  Forall2 (fun m n => m = n \/ m = 1%nat \/ n = 1%nat) s t.

Definition broadcast_axis (m n : nat) : nat := if (m =? 1)%nat then n else m.

(** [ix] is a multi-index of an array of shape [s], and its position in the
    row-major layout of the entries. *)
Definition valid_index (s ix : list nat) : Prop :=
  Forall2 (fun n i => (i < n)%nat) s ix.

Fixpoint ravel (s ix : list nat) : nat :=
  match s, ix with
  | _ :: s', i :: ix' => (i * product s' + ravel s' ix')%nat
  | _, _ => 0%nat
  end.

(** The multi-index at which an array of shape [s] is read for the entry
    [ix] of its broadcast: 0 along every axis of length 1. *)
Definition source_index (s ix : list nat) : list nat :=
  zip_with (fun n i => if (n =? 1)%nat then 0%nat else i) s ix.

End SurfaceEvaluator.

(** ** Sample inputs *)

Module Examples.

Import GradientEstimator SurfaceEvaluator.
Local Open Scope float_scope.

(** The cube of the first coordinate, as an objective. *)
Definition cube (v : list float) : float :=
  match v with
  | x :: _ => x * x * x
  | [] => 0
  end.

(** The state in which the loop of index 0 is entered at [vals = [2.0]]
    with the default relative step. *)
Definition entry_state : loop_state :=
  Eval vm_compute in
    match start cube [2] [abs 2 * 0.001] [0.001 * 1] 0 with
    | (Ok st, _) => st
    | _ => LoopState 0 0 0 [] [] 0
    end.

(** A surface on [0,2] x [0,3] with fill value [-1], whose spline is
    [10 x + y] and whose evaluator reports no error. *)
Definition plane (x y : float) : float := x * 10 + y.

Definition no_error (xs ys : list float) : Z := 0%Z.

Definition surface : interp2d := Interp2d 0 2 0 3 (-1).

End Examples.

(** ** Measures and reference notions for further properties *)

Module Measures.

Import GradientEstimator.
Local Open Scope float_scope.


Fixpoint warnings (evs : list event) : nat :=
  match evs with
  | [] => 0
  | EvalFunc _ :: evs' => warnings evs'
  | LogWarning _ :: evs' => S (warnings evs')
  end.

(** [v] has the length of [vals] and agrees with it outside coordinate [i]. *)
Definition off_axis (vals : list float) (i : Z) (v : list float) : Prop :=
  length v = length vals /\
  forall j, j <> Z.to_nat i -> v !! j = vals !! j.

(** The trapezium rule on samples [f] with spacings [dx]:
    the sum of [dx[k] * (f[k] + f[k+1]) / 2]. *)
Fixpoint trapezium (f dx : list R) : R :=
  match f, dx with
  | f0 :: ((f1 :: _) as f'), d :: dx' =>
      (d * (f0 + f1) / 2 + trapezium f' dx')%R
  | _, _ => 0%R
  end.

End Measures.

(** ** Further sample inputs *)

Module Samples.

Import GradientEstimator SurfaceEvaluator.
Local Open Scope float_scope.

(** The sum of the cubes of the first two coordinates. *)
Definition sum_cubes (v : list float) : float :=
  match v with
  | x :: y :: _ => x * x * x + y * y * y
  | _ => 0
  end.

(** An objective that is NaN everywhere. *)
Definition always_nan (v : list float) : float := nan.

(** The state after [n] further passes of the loop that do not end it. *)
Fixpoint passes (func : list float -> float) (mineps reltol epsscale : float)
    (n : nat) (i : Z) (st : loop_state) : loop_state :=
  match n with
  | O => st
  | S n' =>
      match body func mineps reltol epsscale i st with
      | (Ok (inr st'), _) => passes func mineps reltol epsscale n' i st'
      | _ => st
      end
  end.

(** The loop of index 0 at [vals = [2.0]] with the default steps, after
    eleven passes on [always_nan]: every pass has counted a sign flip. *)
Definition flipped_state : loop_state :=
  Eval vm_compute in
    match start always_nan [2] [abs 2 * 0.001] [0.001 * 1] 0 with
    | (Ok st, _) => passes always_nan 1e-9 0.001 0.5 11 0 st
    | _ => LoopState 0 0 0 [] [] 0
    end.

(** A spline evaluator that reports invalid input data. *)
Definition invalid_data (xs ys : list float) : Z := 10%Z.

End Samples.

(** ** Facts about the gradient estimator *)

Module GradientFacts.

Import GradientEstimator.
Local Open Scope float_scope.

(** *** Indexing *)

Lemma py_index_in_range {A} (l : list A) (i : Z) :
  (0 <= i < Z.of_nat (length l))%Z -> py_index l i = Some (Z.to_nat i).
Proof.
  intros [H0 H1]. unfold py_index.
  destruct (i <? 0)%Z eqn:E; [apply Z.ltb_lt in E; lia|].
  assert ((0 <=? i)%Z = true) as -> by (apply Z.leb_le; lia).
  assert ((i <? Z.of_nat (length l))%Z = true) as -> by (apply Z.ltb_lt; lia).
  reflexivity.
Qed.

Lemma getitem_in_range (l : list float) (i : Z) :
  (0 <= i < Z.of_nat (length l))%Z ->
  exists v, l !! Z.to_nat i = Some v /\ getitem l i = (Ok v, []).
Proof.
  intros H. unfold getitem. rewrite py_index_in_range by done.
  destruct (l !! Z.to_nat i) as [v|] eqn:E.
  - exists v. done.
  - apply lookup_ge_None in E. lia.
Qed.

Lemma moditem_in_range (f : float -> float) (l : list float) (i : Z) :
  (0 <= i < Z.of_nat (length l))%Z ->
  exists v, l !! Z.to_nat i = Some v /\
            moditem f l i = (Ok (<[Z.to_nat i := f v]> l), []).
Proof.
  intros H. destruct (getitem_in_range l i H) as (v & Hv & Hg).
  exists v. split; [done|].
  unfold moditem. rewrite Hg. simpl. rewrite py_index_in_range by done.
  reflexivity.
Qed.

(** *** The builtins [max] and [min] *)

Lemma fold_left_max_ge (l : list Z) (i x : Z) :
  x ∈ i :: l -> (x <= fold_left Z.max l i)%Z.
Proof.
  revert i x. induction l as [|y l IH]; intros i x Hx; simpl.
  - apply list_elem_of_singleton in Hx. lia.
  - apply elem_of_cons in Hx as [->|Hx].
    + etrans; [|apply (IH _ (Z.max i y)); left]. lia.
    + apply elem_of_cons in Hx as [->|Hx].
      * etrans; [|apply (IH _ (Z.max i y)); left]. lia.
      * apply IH. by right.
Qed.

Lemma fold_left_min_le (l : list Z) (i x : Z) :
  x ∈ i :: l -> (fold_left Z.min l i <= x)%Z.
Proof.
  revert i x. induction l as [|y l IH]; intros i x Hx; simpl.
  - apply list_elem_of_singleton in Hx. lia.
  - apply elem_of_cons in Hx as [->|Hx].
    + etrans; [apply (IH _ (Z.min i y)); left|]. lia.
    + apply elem_of_cons in Hx as [->|Hx].
      * etrans; [apply (IH _ (Z.min i y)); left|]. lia.
      * apply IH. by right.
Qed.

(** *** Pre-validation *)

Ltac list_member :=
  unfold validation_errors; solve [repeat (first [by left | right])].

Lemma set_steps_outcome (vals : list float) (releps : step_arg)
    (abseps : option step_arg) :
  (exists e, set_steps vals releps abseps = (Raise e, []) /\
             e ∈ validation_errors /\ InvalidArgument e /\
             (active_step releps abseps = PyOther \/
              exists xs, active_step releps abseps = PyList xs /\
                         length xs <> length vals))
  \/
  (exists eps teps, set_steps vals releps abseps = (Ok (eps, teps), []) /\
                    length eps = length vals /\ length teps = length vals /\
                    active_step releps abseps <> PyOther /\
                    forall xs, active_step releps abseps = PyList xs ->
                               length xs = length vals).
Proof.
  unfold set_steps, active_step, validation_errors.
  destruct abseps as [[a|az|]|]; [| | |destruct releps as [r|rs|]].
  - right. eexists _, _. split; [reflexivity|].
    rewrite !length_map, !repeat_length. repeat split; congruence.
  - destruct (length az =? length vals)%nat eqn:E; simpl.
    + apply Nat.eqb_eq in E. right. eexists _, _. split; [reflexivity|].
      repeat split; try congruence.
    + apply Nat.eqb_neq in E. left. eexists. split; [reflexivity|].
      split; [list_member|]. split; [exact I|]. right. by exists az.
  - left. eexists. split; [reflexivity|]. split; [list_member|].
    split; [exact I|]. by left.
  - right. eexists _, _. split; [reflexivity|].
    rewrite !length_map, !repeat_length. repeat split; congruence.
  - destruct (length rs =? length vals)%nat eqn:E; simpl.
    + apply Nat.eqb_eq in E. right. eexists _, _. split; [reflexivity|].
      rewrite !length_zip_with, !length_map.
      repeat split; try congruence; try lia.
    + apply Nat.eqb_neq in E. left. eexists. split; [reflexivity|].
      split; [list_member|]. split; [exact I|]. right. by exists rs.
  - left. eexists. split; [reflexivity|]. split; [list_member|].
    split; [exact I|]. by left.
Qed.

Lemma prevalidation_outcome (vals : list float) (releps : step_arg)
    (abseps : option step_arg) (nonfixedidx : option (list Z)) :
  (exists e, prevalidation vals releps abseps nonfixedidx = (Raise e, []) /\
             e ∈ validation_errors /\ InvalidArgument e /\
             (index_set vals nonfixedidx = [] \/
              invalid_input vals releps abseps nonfixedidx))
  \/
  (exists eps teps,
      prevalidation vals releps abseps nonfixedidx
      = (Ok (index_set vals nonfixedidx, eps, teps), []) /\
      set_steps vals releps abseps = (Ok (eps, teps), []) /\
      index_set vals nonfixedidx <> [] /\
      Forall (in_range vals) (index_set vals nonfixedidx) /\
      length eps = length vals /\ length teps = length vals /\
      ~ invalid_input vals releps abseps nonfixedidx).
Proof.
  unfold prevalidation. fold (index_set vals nonfixedidx).
  set (idx := index_set vals nonfixedidx).
  destruct (length vals <? length idx)%nat eqn:Elen.
  { apply Nat.ltb_lt in Elen. left. eexists. split; [reflexivity|].
    split; [list_member|].
    split; [exact I|]. right. by apply too_many_indices. }
  apply Nat.ltb_ge in Elen.
  destruct idx as [|i0 idx'] eqn:Eidx.
  { left. eexists. split; [reflexivity|].
    split; [list_member|]. split; [exact I|]. by left. }
  simpl.
  destruct (Z.of_nat (length vals) <=? fold_left Z.max idx' i0)%Z eqn:Emax.
  { simpl. apply Z.leb_le in Emax. left. eexists. split; [reflexivity|].
    split; [list_member|].
    split; [exact I|]. right.
    assert (exists x, x ∈ i0 :: idx' /\ (Z.of_nat (length vals) <= x)%Z)
      as (x & Hx & Hge).
    { clear -Emax. revert i0 Emax. induction idx' as [|y l IH]; intros i0 H.
      - exists i0. split; [left|done].
      - simpl in H. destruct (IH _ H) as (x & Hx & Hge).
        apply elem_of_cons in Hx as [->|Hx].
        + destruct (Z.max_spec i0 y) as [[_ E]|[_ E]]; rewrite E in Hge.
          * exists y. split; [right; left|done].
          * exists i0. split; [left|done].
        + exists x. split; [by do 2 right|done]. }
    apply (index_out_of_range _ _ _ _ x); [by rewrite <- Eidx in Hx|lia]. }
  simpl.
  destruct (fold_left Z.min idx' i0 <? 0)%Z eqn:Emin.
  { simpl. apply Z.ltb_lt in Emin. left. eexists. split; [reflexivity|].
    split; [list_member|].
    split; [exact I|]. right.
    assert (exists x, x ∈ i0 :: idx' /\ (x < 0)%Z) as (x & Hx & Hlt).
    { clear -Emin. revert i0 Emin. induction idx' as [|y l IH]; intros i0 H.
      - exists i0. split; [left|done].
      - simpl in H. destruct (IH _ H) as (x & Hx & Hlt).
        apply elem_of_cons in Hx as [->|Hx].
        + destruct (Z.min_spec i0 y) as [[_ E]|[_ E]]; rewrite E in Hlt.
          * exists i0. split; [left|done].
          * exists y. split; [right; left|done].
        + exists x. split; [by do 2 right|done]. }
    apply (index_out_of_range _ _ _ _ x); [by rewrite <- Eidx in Hx|lia]. }
  simpl.
  apply Z.leb_gt in Emax. apply Z.ltb_ge in Emin.
  assert (Forall (in_range vals) (i0 :: idx')) as Hrange.
  { apply Forall_forall. intros x Hx. split.
    - pose proof (fold_left_min_le idx' i0 x Hx). lia.
    - pose proof (fold_left_max_ge idx' i0 x Hx). lia. }
  destruct (set_steps_outcome vals releps abseps)
    as [(e & He & Hval & Hinv & Hwhy)|(eps & teps & Hs & Hle & Hlt & Hno & Hlist)].
  - rewrite He. simpl. left. exists e. split; [reflexivity|].
    split; [done|]. split; [done|].
    right. destruct Hwhy as [Hother|(xs & Hxs & Hne)].
    + by apply step_not_recognised.
    + by apply (step_length_mismatch _ _ _ _ xs).
  - rewrite Hs. simpl. right. exists eps, teps.
    repeat split; try done.
    intros [Hmany|x Hx Hout|xs Hxs Hne|Hother].
    + fold idx in Hmany. rewrite Eidx in Hmany. lia.
    + fold idx in Hx. rewrite Eidx in Hx.
      rewrite Forall_forall in Hrange. specialize (Hrange x Hx).
      unfold in_range in Hrange. lia.
    + by apply Hne, Hlist.
    + done.
Qed.

(** C5: every invalid input is rejected before the objective is evaluated:
    the call raises one of the errors of the validation code and emits no
    event at all, so [func] has not been called once. *)
Theorem invalid_input_rejected (func : list float -> float)
    (mineps reltol epsscale : float) (fuel : nat) (vals : list float)
    (releps : step_arg) (abseps : option step_arg)
    (nonfixedidx : option (list Z)) :
  invalid_input vals releps abseps nonfixedidx ->
  exists e,
    derivatives func mineps reltol epsscale fuel vals releps abseps nonfixedidx
    = (Raise e, []) /\ e ∈ validation_errors /\ InvalidArgument e.
Proof.
  intros Hbad. unfold derivatives.
  destruct (prevalidation_outcome vals releps abseps nonfixedidx)
    as [(e & He & Hval & Hinv & _)|(eps & teps & _ & _ & _ & _ & _ & _ & Hgood)].
  - exists e. rewrite He. done.
  - done.
Qed.

Lemma invalid_input_rejected_witness :
  exists e,
    derivatives (fun _ => 0) 1e-9 1e-3 0.5 30 [1; 2] (PyFloat 1e-3) None
      (Some [0; 2]%Z)
    = (Raise e, []) /\ e ∈ validation_errors /\ InvalidArgument e.
Proof.
  apply invalid_input_rejected.
  apply (index_out_of_range _ _ _ _ 2%Z).
  - simpl. right. left.
  - simpl. lia.
Defined.

(** C10: with an empty index set the call raises, because [max] is applied
    to the index set unconditionally, although the empty set is none of the
    invalid inputs. *)
Theorem empty_index_set_raises (func : list float -> float)
    (mineps reltol epsscale : float) (fuel : nat) (vals : list float)
    (releps : step_arg) (abseps : option step_arg) :
  derivatives func mineps reltol epsscale fuel vals releps abseps (Some [])
  = (Raise (ValueError "max() arg is an empty sequence"), [])
  /\ derivatives func mineps reltol epsscale fuel [] releps abseps None
     = (Raise (ValueError "max() arg is an empty sequence"), [])
  /\ (length (index_set vals (Some [])) <= length vals)%nat
  /\ Forall (in_range vals) (index_set vals (Some [])).
Proof.
  repeat split.
  - simpl. lia.
  - constructor.
Qed.

(** *** Step initialisation *)

Lemma prevalidation_steps (vals : list float) (releps : step_arg)
    (abseps : option step_arg) (nonfixedidx : option (list Z))
    (idx : list Z) (eps teps : list float) (evs : list event) :
  prevalidation vals releps abseps nonfixedidx = (Ok (idx, eps, teps), evs) ->
  set_steps vals releps abseps = (Ok (eps, teps), []) /\
  idx = index_set vals nonfixedidx /\ evs = [] /\
  Forall (in_range vals) idx /\
  length eps = length vals /\ length teps = length vals.
Proof.
  intros H.
  destruct (prevalidation_outcome vals releps abseps nonfixedidx)
    as [(e & He & _)|(eps' & teps' & Hp & Hs & _ & Hr & Hle & Hlt & _)].
  - congruence.
  - rewrite Hp in H. injection H as <- <- <- <-. done.
Qed.

(** C9 (amended): for a relative step the half-step of index [i] is
    [|vals[i]| * releps] (with the entry of [releps] for [i] when it is
    per-parameter), replaced by that [releps] when the product is zero; the
    step of an index is therefore zero only when its [releps] is zero. *)
Theorem relative_step_initialisation (vals : list float) (releps : step_arg)
    (nonfixedidx : option (list Z)) (idx : list Z) (eps teps : list float)
    (evs : list event) (i : nat) (v : float) :
  prevalidation vals releps None nonfixedidx = (Ok (idx, eps, teps), evs) ->
  vals !! i = Some v ->
  exists r,
    releps_at releps i = Some r /\
    eps !! i = Some (if abs v * r =? 0 then r else abs v * r) /\
    (forall e, eps !! i = Some e -> (e =? 0) = true -> (r =? 0) = true).
Proof.
  intros Hpre Hv.
  apply prevalidation_steps in Hpre as (Hs & _ & _ & _ & _ & _).
  assert (forall r, releps_at releps i = Some r ->
            eps !! i = Some (if abs v * r =? 0 then r else abs v * r) ->
            exists r, releps_at releps i = Some r /\
              eps !! i = Some (if abs v * r =? 0 then r else abs v * r) /\
              (forall e, eps !! i = Some e -> (e =? 0) = true -> (r =? 0) = true))
    as Hfin.
  { intros r Hr He. exists r. repeat split; try done.
    intros e He' Hz. rewrite He in He'. injection He' as <-.
    destruct (abs v * r =? 0) eqn:E; [done|congruence]. }
  destruct releps as [r|rs|]; simpl in Hs.
  - injection Hs as <- <-. apply (Hfin r); [done|].
    rewrite !list_lookup_fmap, Hv. reflexivity.
  - destruct (length rs =? length vals)%nat eqn:E; simpl in Hs; [|done].
    apply Nat.eqb_eq in E. injection Hs as <- <-.
    destruct (rs !! i) as [r|] eqn:Hr.
    + apply (Hfin r); [done|].
      rewrite !lookup_zip_with, list_lookup_fmap, Hv, Hr. reflexivity.
    + apply lookup_ge_None in Hr. apply lookup_lt_Some in Hv. lia.
  - done.
Qed.

Lemma relative_step_initialisation_witness :
  exists r,
    releps_at (PyList [1e-3; 0.5]) 1 = Some r /\
    [abs 3 * 1e-3; 0.5] !! 1%nat = Some (if abs 0 * r =? 0 then r else abs 0 * r) /\
    (forall e, [abs 3 * 1e-3; 0.5] !! 1%nat = Some e ->
               (e =? 0) = true -> (r =? 0) = true).
Proof.
  apply (relative_step_initialisation [3; 0] (PyList [1e-3; 0.5]) None
           [0; 1]%Z [abs 3 * 1e-3; 0.5] [1e-3; 0.5] [] 1 0).
  - vm_compute. reflexivity.
  - reflexivity.
Defined.

(** The claim C9 as stated fails: with [releps = 0.0] the fallback is zero
    too, and index 0 enters its loop with a zero step. *)
Lemma zero_releps_zero_step :
  prevalidation [1] (PyFloat 0) None None = (Ok ([0%Z], [0], [0]), []) /\
  exists st evs,
    start (fun _ => 0) [1] [0] [0] 0 = (Ok st, evs) /\ (leps st =? 0) = true.
Proof.
  split; [vm_compute; reflexivity|].
  eexists _, _. split; vm_compute; reflexivity.
Qed.

(** *** One pass of the loop *)

Section LoopFacts.

Variable func : list float -> float.
Variables mineps reltol epsscale : float.

Local Abbreviation body := (body func mineps reltol epsscale).
Local Abbreviation while_loop := (while_loop func mineps reltol epsscale).
Local Abbreviation gives_up := (gives_up mineps epsscale).
Local Abbreviation runs := (runs func mineps reltol epsscale).

Lemma moditem_perturb (f : float -> float) (l : list float) (i : Z) :
  in_range l i -> moditem f l i = (Ok (perturb f i l), []).
Proof.
  intros H. destruct (moditem_in_range f l i H) as (v & Hv & ->).
  unfold perturb. f_equal. f_equal.
  apply list_eq. intros k.
  destruct (decide (k = Z.to_nat i)) as [->|Hne].
  - rewrite list_lookup_insert_eq by (by eapply lookup_lt_Some).
    by rewrite list_lookup_alter_eq, Hv.
  - by rewrite list_lookup_insert_ne, list_lookup_alter_ne.
Qed.

Lemma in_range_perturb (f : float -> float) (l : list float) (i k : Z) :
  in_range (perturb f k l) i <-> in_range l i.
Proof. unfold in_range, perturb. by rewrite length_alter. Qed.

Lemma central_difference_perturb (i : Z) (l : float) (fv bv : list float) :
  in_range fv i -> in_range bv i ->
  let fv' := perturb (fun v => v + 0.5 * l) i fv in
  let bv' := perturb (fun v => v - 0.5 * l) i bv in
  central_difference func i l fv bv
  = (Ok (fv', bv', (func fv' - func bv') / l), [EvalFunc fv'; EvalFunc bv']).
Proof.
  intros Hf Hb. unfold central_difference.
  rewrite (moditem_perturb _ fv i Hf). simpl.
  rewrite (moditem_perturb _ bv i Hb). reflexivity.
Qed.

(** The pass, written out: either the loop gives up, or the shrunk
    difference is judged. *)
Lemma body_unfold (i : Z) (st : loop_state) :
  fits i st ->
  let fv := shrunk_fvals epsscale i st in
  let bv := shrunk_bvals epsscale i st in
  let cdiffnew := shrunk_difference func epsscale i st in
  body i st =
  if gives_up st then (Ok (inl 0), [LogWarning no_convergence])
  else
    match judge reltol (cdiff st) cdiffnew (flipflop st) with
    | inl g => (Ok (inl g), [EvalFunc fv; EvalFunc bv])
    | inr (c, ff) =>
        (Ok (inr (LoopState (leps st * epsscale) (cureps st * epsscale) ff fv bv c)),
         [EvalFunc fv; EvalFunc bv])
    end.
Proof.
  intros [Hf Hb]. simpl. unfold GradientEstimator.body.
  rewrite (moditem_perturb _ (fvals st) i Hf). simpl.
  rewrite (moditem_perturb _ (bvals st) i Hb). simpl.
  destruct (gives_up st); [reflexivity|].
  rewrite central_difference_perturb by (by apply in_range_perturb).
  simpl. fold (shrunk_fvals epsscale i st) (shrunk_bvals epsscale i st).
  fold (shrunk_difference func epsscale i st).
  destruct (judge _ _ _ _) as [g|[c ff]]; reflexivity.
Qed.

Lemma fits_shrunk (i : Z) (st : loop_state) (l c : float) (ff : Z) (d : float) :
  fits i st ->
  fits i (LoopState l c ff (shrunk_fvals epsscale i st)
            (shrunk_bvals epsscale i st) d).
Proof.
  intros [Hf Hb]. split; simpl; unfold shrunk_fvals, shrunk_bvals;
    by rewrite !in_range_perturb.
Qed.



Lemma body_gives_up (i : Z) (st : loop_state) :
  fits i st -> gives_up st = true ->
  body i st = (Ok (inl 0), [LogWarning no_convergence]).
Proof. intros Hfit Hg. by rewrite (body_unfold i st Hfit), Hg. Qed.

(** *** The [while] loop *)





(** C1: once the difference has been recomputed at the shrunk step, it is
    accepted and the loop ends exactly when it equals the previous estimate
    or the ratio of the two is finite, positive and within [reltol] of one;
    otherwise the loop goes on from the new estimate, and the flip-flop
    counter grows exactly when the ratio is not finite and positive.  On
    the equality branch the value stored is the previous estimate, which
    [==] the new one. *)
Theorem convergence_test (fuel : nat) (i : Z) (st : loop_state) :
  fits i st -> gives_up st = false ->
  let cdiffnew := shrunk_difference func epsscale i st in
  let ratio := cdiff st / cdiffnew in
  let same_sign := is_finite ratio && (0 <? ratio) in
  let accepted :=
    (cdiffnew =? cdiff st) || (same_sign && (abs (1 - ratio) <? reltol)) in
  let evs := [EvalFunc (shrunk_fvals epsscale i st);
              EvalFunc (shrunk_bvals epsscale i st)] in
  if accepted then
    exists g,
      body i st = (Ok (inl g), evs) /\
      while_loop (S fuel) i st = (Ok g, evs) /\
      (g = cdiffnew \/ (g = cdiff st /\ (cdiffnew =? g) = true))
  else
    let st' :=
      LoopState (leps st * epsscale) (cureps st * epsscale)
        (if same_sign then flipflop st else (flipflop st + 1)%Z)
        (shrunk_fvals epsscale i st) (shrunk_bvals epsscale i st) cdiffnew in
    body i st = (Ok (inr st'), evs) /\
    while_loop (S fuel) i st
    = (let '(r, evs') := while_loop fuel i st' in (r, evs ++ evs')).
Proof.
  intros Hfit Hg. simpl.
  pose proof (body_unfold i st Hfit) as Hb. simpl in Hb. rewrite Hg in Hb.
  unfold judge in Hb.
  set (cdiffnew := shrunk_difference func epsscale i st) in *.
  destruct (cdiffnew =? cdiff st) eqn:Eeq; simpl.
  { exists (cdiff st). rewrite Hb. repeat split. by right. }
  destruct (is_finite (cdiff st / cdiffnew) && (0 <? cdiff st / cdiffnew))
    eqn:Esign; simpl.
  - destruct (abs (1 - cdiff st / cdiffnew) <? reltol) eqn:Etol.
    + exists cdiffnew. rewrite Hb. repeat split. by left.
    + rewrite Hb. split; reflexivity.
  - rewrite Hb. split; reflexivity.
Qed.

(** *** One gradient component *)





(** *** The [for] loop *)

Lemma setitem_count (grads : list float) (count : nat) (g : float) :
  (count < length grads)%nat ->
  setitem grads (Z.of_nat count) g = (Ok (<[count := g]> grads), []).
Proof.
  intros H. unfold setitem.
  destruct (moditem_in_range (fun _ => g) grads (Z.of_nat count)) as (v & _ & ->);
    [lia|].
  by rewrite Nat2Z.id.
Qed.





End LoopFacts.

(** *** Concrete runs *)

Import Examples.

Lemma convergence_test_witness :
  fits 0 entry_state /\ gives_up 1e-9 0.5 entry_state = false /\
  exists g,
    body cube 1e-9 0.001 0.5 0 entry_state
    = (Ok (inl g), [EvalFunc (shrunk_fvals 0.5 0 entry_state);
                    EvalFunc (shrunk_bvals 0.5 0 entry_state)]) /\
    while_loop cube 1e-9 0.001 0.5 1 0 entry_state
    = (Ok g, [EvalFunc (shrunk_fvals 0.5 0 entry_state);
              EvalFunc (shrunk_bvals 0.5 0 entry_state)]) /\
    (g = shrunk_difference cube 0.5 0 entry_state \/
     (g = cdiff entry_state /\
      (shrunk_difference cube 0.5 0 entry_state =? g) = true)).
Proof.
  assert (fits 0 entry_state) as Hfit.
  { split; (vm_compute; split; [discriminate|reflexivity]). }
  assert (gives_up 1e-9 0.5 entry_state = false) as Hgo.
  { vm_compute. reflexivity. }
  split; [exact Hfit|]. split; [exact Hgo|].
  exact (convergence_test cube 1e-9 0.001 0.5 0 0 entry_state Hfit Hgo).
Defined.


End GradientFacts.

(** ** Facts about the log-domain integrator *)

Module IntegratorFacts.

Import LogDomainIntegrator.
Local Open Scope R_scope.



(** What the call computes when it does not raise. *)
Lemma logtrapzexp_scalar (lnf : list R) (dx : R) :
  logtrapzexp lnf (StepScalar dx)
  = (Ok (ln (dx / 2)
         + logsumexp_value [logsumexp_value (all_but_last lnf);
                            logsumexp_value (all_but_first lnf)]),
     [LogSumExp (all_but_last lnf); LogSumExp (all_but_first lnf);
      LogSumExp [logsumexp_value (all_but_last lnf);
                 logsumexp_value (all_but_first lnf)]]).
Proof. reflexivity. Qed.

Lemma logtrapzexp_seq (lnf dx : list R) :
  Z.of_nat (length dx) = (Z.of_nat (length lnf) - 1)%Z ->
  let a := zip_with Rplus (all_but_last lnf) (map ln dx) in
  let b := zip_with Rplus (all_but_first lnf) (map ln dx) in
  logtrapzexp lnf (StepSeq dx)
  = (Ok (- ln 2 + logsumexp_value [logsumexp_value a; logsumexp_value b]),
     [LogSumExp a; LogSumExp b;
      LogSumExp [logsumexp_value a; logsumexp_value b]]).
Proof.
  intros H. unfold logtrapzexp.
  assert ((Z.of_nat (length dx) =? Z.of_nat (length lnf) - 1)%Z = true) as ->
    by (by apply Z.eqb_eq).
  reflexivity.
Qed.




(** C8: a step sequence of the wrong length and a step that is neither a
    number nor a sequence are both rejected, and no log-sum-exp has been
    computed when the exception is raised. *)
Theorem logtrapzexp_rejects (lnf : list R) :
  (forall steps : list R,
      Z.of_nat (length steps) <> (Z.of_nat (length lnf) - 1)%Z ->
      exists e,
        logtrapzexp lnf (StepSeq steps) = (Raise e, []) /\
        e = ValueError
              "Step size array must have length one less than the function length"
        /\ InvalidArgument e)
  /\
  (exists e,
      logtrapzexp lnf StepOther = (Raise e, []) /\
      e = TypeError "Step size must be a single value or array-like" /\
      InvalidArgument e).
Proof.
  split.
  - intros steps Hne. unfold logtrapzexp.
    assert ((Z.of_nat (length steps) =? Z.of_nat (length lnf) - 1)%Z = false) as ->
      by (by apply Z.eqb_neq).
    simpl. by eexists.
  - by eexists.
Qed.

Lemma logtrapzexp_rejects_witness :
  exists e,
    logtrapzexp [0; 0; 0] (StepSeq [1; 1; 1]) = (Raise e, []) /\
    e = ValueError
          "Step size array must have length one less than the function length"
    /\ InvalidArgument e.
Proof.
  destruct (logtrapzexp_rejects [0; 0; 0]) as [Hseq _].
  apply (Hseq [1; 1; 1]). simpl. lia.
Defined.

End IntegratorFacts.

(** ** Facts about the surface evaluator *)

Module SurfaceFacts.

Import SurfaceEvaluator.
Local Open Scope float_scope.

(** *** Padding and broadcasting of shapes *)

Lemma expand_while_below_spec (fuel n : nat) (a : ndarray) :
  (n - ndim a <= fuel)%nat ->
  expand_while_below fuel n a = NDArray (right_padded n (shape a)) (data a).
Proof.
  revert a. induction fuel as [|fuel IH]; intros [s d] H; simpl in *;
    unfold ndim in *; simpl in *.
  - unfold right_padded. replace (n - length s)%nat with 0%nat by lia.
    simpl. by rewrite app_nil_r.
  - destruct (length s <? n)%nat eqn:E.
    + apply Nat.ltb_lt in E. rewrite IH; simpl; [|rewrite length_app; simpl; lia].
      unfold right_padded. rewrite length_app. simpl.
      replace (n - length s)%nat with (S (n - (length s + 1)))%nat by lia.
      simpl. by rewrite <- app_assoc.
    + apply Nat.ltb_ge in E. unfold right_padded.
      replace (n - length s)%nat with 0%nat by lia.
      simpl. by rewrite app_nil_r.
Qed.

Lemma right_padded_length (n : nat) (s : list nat) :
  length (right_padded n s) = Nat.max n (length s).
Proof. unfold right_padded. rewrite length_app, length_replicate. lia. Qed.

Lemma right_padded_same (s t : list nat) :
  s = t -> right_padded (length t) s = s.
Proof.
  intros ->. unfold right_padded. rewrite Nat.sub_diag. simpl.
  by rewrite app_nil_r.
Qed.

(** The two arrays as they stand after lines 248-252. *)
Lemma padding_spec (a b : ndarray) :
  (if bool_decide (shape a = shape b) then (a, b)
   else
     let b' := expand_while_below (ndim a) (ndim a) b in
     let a' := expand_while_below (ndim b') (ndim b') a in
     (a', b'))
  = (NDArray (right_padded (ndim b) (shape a)) (data a),
     NDArray (right_padded (ndim a) (shape b)) (data b)).
Proof.
  case_bool_decide as Heq.
  - unfold ndim. rewrite (right_padded_same (shape a) (shape b) Heq).
    rewrite (right_padded_same (shape b) (shape a)) by done.
    by destruct a, b.
  - cbv zeta. rewrite (expand_while_below_spec (ndim a) (ndim a) b) by lia.
    rewrite expand_while_below_spec by lia.
    unfold ndim. simpl. rewrite right_padded_length.
    f_equal. f_equal. unfold right_padded. f_equal. f_equal. lia.
Qed.

Lemma broadcast_dim_absorb (a b d : nat) :
  broadcast_dim a b = Some d -> broadcast_dim b d = Some d.
Proof.
  unfold broadcast_dim. intros H.
  destruct (a =? b)%nat eqn:E1.
  { apply Nat.eqb_eq in E1. injection H as <-. subst b.
    by rewrite Nat.eqb_refl. }
  destruct (a =? 1)%nat eqn:E2.
  { injection H as <-. by rewrite Nat.eqb_refl. }
  destruct (b =? 1)%nat eqn:E3; [|done].
  injection H as <-. apply Nat.eqb_eq in E3. subst b.
  rewrite Nat.eqb_sym, E2. reflexivity.
Qed.

Lemma broadcast_dim_refl (a : nat) : broadcast_dim a a = Some a.
Proof. unfold broadcast_dim. by rewrite Nat.eqb_refl. Qed.

Lemma broadcast_rev_refl (s : list nat) : broadcast_rev s s = Some s.
Proof.
  induction s as [|a s IH]; [done|]. simpl.
  by rewrite broadcast_dim_refl, IH.
Qed.

Lemma broadcast_rev_absorb (s t r : list nat) :
  broadcast_rev s t = Some r -> broadcast_rev t r = Some r.
Proof.
  revert t r. induction s as [|a s IH]; intros t r H.
  - simpl in H. injection H as <-. apply broadcast_rev_refl.
  - destruct t as [|b t]; simpl in H.
    + injection H as <-. reflexivity.
    + destruct (broadcast_dim a b) as [d|] eqn:Ed; [|done].
      destruct (broadcast_rev s t) as [r'|] eqn:Er; [|done].
      injection H as <-. simpl.
      by rewrite (broadcast_dim_absorb a b d Ed), (IH t r' Er).
Qed.

Lemma broadcast_shapes_absorb (s t r : list nat) :
  broadcast_shapes s t = Some r -> broadcast_shapes t r = Some r.
Proof.
  unfold broadcast_shapes. intros H.
  destruct (broadcast_rev (reverse s) (reverse t)) as [r0|] eqn:E; [|done].
  injection H as <-. rewrite reverse_involutive.
  by rewrite (broadcast_rev_absorb _ _ _ E).
Qed.

(** Reconciliation of two arrays with more than one entry each, in closed
    form. *)
Lemma sanitize_arrays (a b : ndarray) :
  size a <> 1%nat -> size b <> 1%nat ->
  let a1 := NDArray (right_padded (ndim b) (shape a)) (data a) in
  let b1 := NDArray (right_padded (ndim a) (shape b)) (data b) in
  _sanitize_inputs (Arr a) (Arr b) =
  match broadcast_shapes (shape a1) (shape b1) with
  | Some r =>
      (Ok (Arr (NDArray r (map (fun v => v * 1) (broadcast_to a1 r))),
           Arr (NDArray r (map (fun v => v * 1) (broadcast_to b1 r)))), [])
  | None => (Raise (incompatible (shape a, shape b)), [])
  end.
Proof.
  intros Ha Hb. cbv zeta. unfold _sanitize_inputs, collapse.
  apply Nat.eqb_neq in Ha, Hb. rewrite Ha, Hb.
  rewrite padding_spec. unfold mul_ones. simpl.
  destruct (broadcast_shapes _ _) as [r|] eqn:Er; [|reflexivity].
  simpl. by rewrite (broadcast_shapes_absorb _ _ _ Er).
Qed.

(** *** Entries of broadcast arrays *)

Lemma product_app (s t : list nat) : product (s ++ t) = (product s * product t)%nat.
Proof. induction s as [|a s IH]; simpl; [lia|]. rewrite IH. lia. Qed.

Lemma product_ones (k : nat) : product (replicate k 1%nat) = 1%nat.
Proof. induction k as [|k IH]; simpl; [done|]. rewrite IH. lia. Qed.

Lemma right_padded_product (n : nat) (s : list nat) :
  product (right_padded n s) = product s.
Proof. unfold right_padded. rewrite product_app, product_ones. lia. Qed.

Lemma chunks_map_length (f : list float -> list float) (k n m : nat)
    (d : list float) :
  (forall c, length c = n -> length (f c) = m) ->
  length d = (k * n)%nat ->
  length (concat (map f (chunks k n d))) = (k * m)%nat.
Proof.
  intros Hf. revert d. induction k as [|k IH]; intros d Hd; [done|].
  simpl. rewrite length_app, IH, Hf; [lia| |].
  - rewrite length_take. lia.
  - rewrite length_drop. lia.
Qed.

Lemma concat_replicate_length (b : nat) (l : list float) :
  length (concat (replicate b l)) = (b * length l)%nat.
Proof. induction b as [|b IH]; simpl; [done|]. rewrite length_app, IH. lia. Qed.

Lemma stretch_length (s t : list nat) (d : list float) :
  stretches_to s t -> length d = product s ->
  length (stretch s t d) = product t.
Proof.
  intros H. revert d. induction H as [|a b s t Hab H IH]; intros d Hd; [done|].
  simpl in *. destruct (a =? b)%nat eqn:E.
  - apply Nat.eqb_eq in E. subst b.
    by apply chunks_map_length.
  - destruct Hab as [->| ->]; [by rewrite Nat.eqb_refl in E|].
    rewrite concat_replicate_length, IH; lia.
Qed.

Lemma stretches_to_refl (s : list nat) : stretches_to s s.
Proof. induction s; constructor; auto. Qed.

Lemma stretches_to_ones (t : list nat) : stretches_to (replicate (length t) 1%nat) t.
Proof. induction t; constructor; auto. Qed.

Lemma broadcast_rev_length (s t r : list nat) :
  broadcast_rev s t = Some r -> length r = Nat.max (length s) (length t).
Proof.
  revert t r. induction s as [|a s IH]; intros t r H.
  - simpl in H. by injection H as <-.
  - destruct t as [|b t]; simpl in H.
    + by injection H as <-.
    + destruct (broadcast_dim a b) as [d|]; [|done].
      destruct (broadcast_rev s t) as [r'|] eqn:Er; [|done].
      injection H as <-. simpl. by rewrite (IH t r' Er).
Qed.

Lemma broadcast_rev_stretches (s t r : list nat) :
  broadcast_rev s t = Some r ->
  stretches_to (s ++ replicate (length r - length s) 1%nat) r.
Proof.
  revert t r. induction s as [|a s IH]; intros t r H.
  - simpl in H. injection H as <-. simpl. rewrite Nat.sub_0_r.
    apply stretches_to_ones.
  - destruct t as [|b t]; simpl in H.
    + injection H as <-. rewrite Nat.sub_diag. simpl. rewrite app_nil_r.
      apply stretches_to_refl.
    + destruct (broadcast_dim a b) as [d|] eqn:Ed; [|done].
      destruct (broadcast_rev s t) as [r'|] eqn:Er; [|done].
      injection H as <-. simpl. constructor; [|by eapply IH].
      unfold broadcast_dim in Ed.
      destruct (a =? b)%nat; [injection Ed as <-; by left|].
      destruct (a =? 1)%nat eqn:E1; [apply Nat.eqb_eq in E1; by right|].
      destruct (b =? 1)%nat; [injection Ed as <-; by left|done].
Qed.

Lemma broadcast_shapes_stretches (s t r : list nat) :
  broadcast_shapes s t = Some r ->
  stretches_to (replicate (length r - length s) 1%nat ++ s) r.
Proof.
  unfold broadcast_shapes. intros H.
  destruct (broadcast_rev (reverse s) (reverse t)) as [r0|] eqn:E; [|done].
  injection H as <-.
  apply broadcast_rev_stretches in E. apply Forall2_reverse in E.
  rewrite reverse_app, reverse_replicate, reverse_involutive in E.
  by rewrite !length_reverse in *.
Qed.

Lemma broadcast_to_length (a : ndarray) (t r : list nat) :
  well_formed a -> broadcast_shapes (shape a) t = Some r ->
  length (broadcast_to a r) = product r.
Proof.
  intros Hwf H. unfold broadcast_to. apply stretch_length.
  - by eapply broadcast_shapes_stretches.
  - rewrite product_app, product_ones. unfold well_formed, size in Hwf. lia.
Qed.

(** The reconciled arrays have a common shape and are well formed. *)
Lemma sanitize_arrays_well_formed (a b : ndarray) (r : list nat) :
  well_formed a -> well_formed b ->
  let a1 := NDArray (right_padded (ndim b) (shape a)) (data a) in
  let b1 := NDArray (right_padded (ndim a) (shape b)) (data b) in
  broadcast_shapes (shape a1) (shape b1) = Some r ->
  well_formed (NDArray r (map (fun v => v * 1) (broadcast_to a1 r))) /\
  well_formed (NDArray r (map (fun v => v * 1) (broadcast_to b1 r))).
Proof.
  intros Ha Hb a1 b1 Hr. unfold well_formed, size. simpl.
  rewrite !length_map. split.
  - apply (broadcast_to_length a1 (shape b1) r); [|done].
    unfold well_formed, size, a1. simpl. by rewrite right_padded_product.
  - apply (broadcast_to_length b1 r r).
    + unfold well_formed, size, b1. simpl. by rewrite right_padded_product.
    + by apply (broadcast_shapes_absorb (shape a1)).
Qed.

Lemma chunks_concat (k n : nat) (d : list float) :
  length d = (k * n)%nat -> concat (chunks k n d) = d.
Proof.
  revert d. induction k as [|k IH]; intros d Hd; simpl in *.
  - by destruct d.
  - rewrite IH by (rewrite length_drop; lia). apply take_drop.
Qed.

Lemma chunks_lengths (k n : nat) (d : list float) :
  length d = (k * n)%nat -> Forall (fun c => length c = n) (chunks k n d).
Proof.
  revert d. induction k as [|k IH]; intros d Hd; simpl in *; constructor.
  - rewrite length_take. lia.
  - apply IH. rewrite length_drop. lia.
Qed.

Lemma chunks_lookup (k n i : nat) (d : list float) :
  (i < k)%nat -> chunks k n d !! i = Some (take n (drop (i * n) d)).
Proof.
  revert i d. induction k as [|k IH]; intros i d Hi; [lia|].
  destruct i as [|i]; simpl; [done|].
  rewrite IH by lia. by rewrite drop_drop.
Qed.

Lemma concat_lookup_block (ls : list (list float)) (m i r : nat)
    (l : list float) :
  Forall (fun c => length c = m) ls -> ls !! i = Some l -> (r < m)%nat ->
  concat ls !! (i * m + r)%nat = l !! r.
Proof.
  intros Hall. revert i. induction Hall as [|c ls Hc Hall IH]; intros i Hl Hr;
    [done|].
  destruct i as [|i]; simpl in *.
  - injection Hl as ->. by rewrite lookup_app_l by lia.
  - rewrite lookup_app_r by lia.
    replace (m + i * m + r - length c)%nat with (i * m + r)%nat by lia.
    by apply IH.
Qed.

Lemma ravel_lt (s ix : list nat) :
  valid_index s ix -> (ravel s ix < product s)%nat.
Proof.
  induction 1 as [|n i s ix Hi _ IH]; simpl; [lia|]. nia.
Qed.

Lemma source_index_valid (s t ix : list nat) :
  stretches_to s t -> valid_index t ix -> valid_index s (source_index s ix).
Proof.
  intros H. revert ix. induction H as [|a b s t Hab _ IH]; intros ix Hix.
  - inversion Hix. constructor.
  - inversion Hix as [|? i ? ix' Hi Hix']; subst. simpl. constructor; [|by apply IH].
    destruct (a =? 1)%nat eqn:E; [apply Nat.eqb_eq in E; lia|].
    apply Nat.eqb_neq in E. destruct Hab; [lia|done].
Qed.

(** The entries of a stretched array: the entry at a multi-index is that of
    the original array with the index set to 0 along the stretched axes. *)
Lemma stretch_lookup (s t : list nat) (d : list float) (ix : list nat) :
  stretches_to s t -> length d = product s -> valid_index t ix ->
  stretch s t d !! ravel t ix = d !! ravel s (source_index s ix).
Proof.
  intros H. revert d ix.
  induction H as [|a b s t Hab H IH]; intros d ix Hd Hix.
  - by inversion Hix.
  - inversion Hix as [|? i ? ix' Hi Hix']; subst. simpl in *.
    pose proof (ravel_lt t ix' Hix') as Hr.
    pose proof (ravel_lt s _ (source_index_valid s t ix' H Hix')) as Hk.
    destruct (a =? b)%nat eqn:E.
    + apply Nat.eqb_eq in E. subst b.
      rewrite (concat_lookup_block _ (product t) i _
                 (stretch s t (take (product s) (drop (i * product s) d)))).
      * rewrite IH; [|rewrite length_take, length_drop; nia|done].
        rewrite lookup_take_lt by done. rewrite lookup_drop.
        destruct (a =? 1)%nat eqn:E1; [|done].
        apply Nat.eqb_eq in E1. by replace i with 0%nat by lia.
      * apply Forall_fmap. eapply Forall_impl; [by apply chunks_lengths|].
        intros c Hc. simpl. by apply stretch_length.
      * by rewrite list_lookup_fmap, chunks_lookup.
      * done.
    + destruct Hab as [->| ->]; [by rewrite Nat.eqb_refl in E|]. simpl.
      rewrite (concat_lookup_block _ (product t) i _ (stretch s t d)).
      * apply IH; [lia|done].
      * apply Forall_replicate. apply stretch_length; [done|lia].
      * by apply lookup_replicate_2.
      * done.
Qed.

(** *** The broadcasting rule, axis by axis *)

Lemma broadcast_rev_compatible (s t : list nat) :
  compatible s t -> broadcast_rev s t = Some (zip_with broadcast_axis s t).
Proof.
  induction 1 as [|m n s t Hmn _ IH]; [done|]. simpl. rewrite IH.
  unfold broadcast_dim, broadcast_axis.
  destruct (m =? n)%nat eqn:E.
  - apply Nat.eqb_eq in E. subst n. by destruct (m =? 1)%nat eqn:E1;
      [apply Nat.eqb_eq in E1; subst|].
  - destruct (m =? 1)%nat eqn:E1; [done|].
    apply Nat.eqb_neq in E, E1.
    destruct Hmn as [? | [? | ->]]; [done|done|]. by rewrite Nat.eqb_refl.
Qed.

Lemma broadcast_rev_some_compatible (s t r : list nat) :
  length s = length t -> broadcast_rev s t = Some r -> compatible s t.
Proof.
  revert t r. induction s as [|m s IH]; intros [|n t] r Hlen Hr;
    simpl in *; try done; [constructor|].
  destruct (broadcast_dim m n) as [d|] eqn:Ed; [|done].
  destruct (broadcast_rev s t) as [r'|] eqn:Er; [|done].
  constructor; [|eapply IH; [lia|done]].
  unfold broadcast_dim in Ed.
  destruct (m =? n)%nat eqn:E; [apply Nat.eqb_eq in E; by left|].
  destruct (m =? 1)%nat eqn:E1; [apply Nat.eqb_eq in E1; right; by left|].
  destruct (n =? 1)%nat eqn:E2; [apply Nat.eqb_eq in E2; right; by right|done].
Qed.

Lemma zip_with_axes_reverse (f : nat -> nat -> nat) (s t : list nat) :
  length s = length t ->
  zip_with f (reverse s) (reverse t) = reverse (zip_with f s t).
Proof.
  revert t. induction s as [|m s IH]; intros [|n t] Hlen; simpl in *; try done.
  rewrite !reverse_cons, zip_with_app by (rewrite !length_reverse; lia).
  by rewrite IH by lia.
Qed.

Lemma broadcast_shapes_compatible (s t : list nat) :
  compatible s t -> broadcast_shapes s t = Some (zip_with broadcast_axis s t).
Proof.
  intros H. unfold broadcast_shapes.
  rewrite (broadcast_rev_compatible _ _ (Forall2_reverse _ _ _ H)).
  rewrite zip_with_axes_reverse by (by eapply Forall2_length).
  by rewrite reverse_involutive.
Qed.

Lemma broadcast_shapes_incompatible (s t : list nat) :
  length s = length t -> ~ compatible s t -> broadcast_shapes s t = None.
Proof.
  intros Hlen Hno. unfold broadcast_shapes.
  destruct (broadcast_rev (reverse s) (reverse t)) as [r|] eqn:E; [|done].
  exfalso. apply Hno.
  apply broadcast_rev_some_compatible in E; [|by rewrite !length_reverse].
  apply Forall2_reverse in E. by rewrite !reverse_involutive in E.
Qed.

Lemma compatible_stretches (s t : list nat) :
  compatible s t ->
  stretches_to s (zip_with broadcast_axis s t) /\
  stretches_to t (zip_with broadcast_axis s t).
Proof.
  induction 1 as [|m n s t Hmn _ [IHs IHt]]; [split; constructor|].
  assert (broadcast_axis m n = m /\ (n = m \/ n = 1%nat)
          \/ broadcast_axis m n = n /\ m = 1%nat) as Haxis.
  { unfold broadcast_axis. destruct (m =? 1)%nat eqn:E.
    - apply Nat.eqb_eq in E. by right.
    - apply Nat.eqb_neq in E. left. split; [done|]. lia. }
  simpl. split; (constructor; [|done]);
    destruct Haxis as [[-> ?]|[-> ?]]; auto.
Qed.

(** The entries of an array broadcast to a shape of its own rank. *)
Lemma broadcast_to_lookup (s r : list nat) (d : list float) (ix : list nat) :
  stretches_to s r -> length d = product s -> valid_index r ix ->
  exists u,
    d !! ravel s (source_index s ix) = Some u /\
    map (fun v => v * 1) (broadcast_to (NDArray s d) r) !! ravel r ix
    = Some (u * 1).
Proof.
  intros Hs Hd Hix.
  pose proof (ravel_lt s _ (source_index_valid s r ix Hs Hix)) as Hk.
  destruct (lookup_lt_is_Some_2 d (ravel s (source_index s ix))) as [u Hu];
    [lia|].
  exists u. split; [done|].
  unfold broadcast_to, ndim. simpl.
  rewrite (Forall2_length _ _ _ Hs), Nat.sub_diag. simpl.
  by rewrite list_lookup_fmap, stretch_lookup, Hu.
Qed.

(** *** Comparisons of floats *)

Lemma SFcompare_swap (a b : spec_float) :
  SFcompare b a = option_map CompOpp (SFcompare a b).
Proof.
  destruct a as [[]| [] | | [] m1 e1], b as [[]| [] | | [] m2 e2];
    simpl; try reflexivity.
  - rewrite (Z.compare_antisym e1 e2).
    destruct (e1 ?= e2)%Z; simpl; try reflexivity.
    rewrite (Pos.compare_cont_antisym m1 m2 Eq). simpl.
    by destruct (Pos.compare_cont Eq m1 m2).
  - rewrite (Z.compare_antisym e1 e2).
    destruct (e1 ?= e2)%Z; simpl; try reflexivity.
    rewrite (Pos.compare_cont_antisym m1 m2 Eq). simpl.
    by destruct (Pos.compare_cont Eq m1 m2).
Qed.

Lemma leb_not_ltb (a b : float) : (a <=? b) = true -> (b <? a) = false.
Proof.
  rewrite leb_spec, ltb_spec. unfold SFleb, SFltb.
  rewrite (SFcompare_swap (Prim2SF a) (Prim2SF b)).
  by destruct (SFcompare (Prim2SF a) (Prim2SF b)) as [[]|].
Qed.

(** *** The call *)

Section CallFacts.

Variable spline : float -> float -> float.
Variable ier_of : list float -> list float -> Z.
Variable uninitialised : float.
Variable self : interp2d.

Local Abbreviation call := (__call__ spline ier_of uninitialised self).
Local Abbreviation oob := (out_of_bounds self).
Local Abbreviation pv := (point_value spline self).
Local Abbreviation mask := (in_bounds_mask self).
Local Abbreviation status := (final_status ier_of self).
Local Abbreviation calls := (spline_calls self).

Lemma check_ier_events (ier : Z) (v : pyval) :
  check_ier ier v = (checked ier v, []).
Proof.
  unfold checked, check_ier.
  destruct (ier =? 10)%Z; [done|]. by destruct (negb (ier =? 0)%Z).
Qed.

Lemma checked_zero (v : pyval) : checked 0 v = Ok v.
Proof. reflexivity. Qed.

(** Filling the out-of-bounds entries and assigning the spline's values to
    the others pairs the two argument lists entry by entry. *)
Lemma assign_fill_paired (xs ys : list float) :
  length xs = length ys ->
  assign_where (mask xs ys)
    (zip_with spline (select (mask xs ys) xs) (select (mask xs ys) ys))
    (fill_where (zip_with oob xs ys) (fill_value self)
       (map (fun _ => uninitialised) xs))
  = zip_with pv xs ys.
Proof.
  revert ys. induction xs as [|x xs IH]; intros [|y ys] Hlen; try done.
  simpl in Hlen. injection Hlen as Hlen.
  unfold in_bounds_mask, fill_where in *. simpl.
  unfold point_value at 1. destruct (oob x y); simpl; f_equal; by apply IH.
Qed.

Lemma fill_all_paired (xs ys : list float) :
  length xs = length ys ->
  existsb negb (zip_with oob xs ys) = false ->
  fill_where (zip_with oob xs ys) (fill_value self)
    (map (fun _ => uninitialised) xs)
  = zip_with pv xs ys.
Proof.
  revert ys. induction xs as [|x xs IH]; intros [|y ys] Hlen Hall; try done.
  simpl in *. injection Hlen as Hlen.
  apply orb_false_iff in Hall as [Hx Hall].
  unfold fill_where in *. simpl. unfold point_value at 1.
  apply negb_false_iff in Hx. rewrite Hx. f_equal. by apply IH.
Qed.

(** Only in-bounds points are handed to the spline evaluator. *)
Lemma selected_in_bounds (xs ys : list float) :
  Forall2 (fun x y => oob x y = false)
    (select (mask xs ys) xs) (select (mask xs ys) ys).
Proof.
  revert ys. induction xs as [|x xs IH]; intros [|y ys]; try constructor.
  unfold in_bounds_mask in *. simpl.
  destruct (oob x y) eqn:E; simpl; [apply IH|].
  constructor; [done|apply IH].
Qed.

Lemma call_on_numbers (x y : pyval) (u v : float) :
  _sanitize_inputs x y = (Ok (Num u, Num v), []) ->
  call x y = (checked (status [u] [v]) (Num (pv u v)), calls [u] [v]).
Proof.
  intros Hs. unfold __call__. rewrite Hs. simpl.
  unfold final_status, spline_calls, point_value, in_bounds_mask. simpl.
  destruct (oob u v); simpl; [reflexivity|].
  by rewrite check_ier_events.
Qed.

Lemma call_on_arrays (x y : pyval) (a b : ndarray) :
  _sanitize_inputs x y = (Ok (Arr a, Arr b), []) ->
  length (data a) = length (data b) ->
  call x y
  = (checked (status (data a) (data b))
       (Arr (NDArray (shape a) (zip_with pv (data a) (data b)))),
     calls (data a) (data b)).
Proof.
  intros Hs Hlen. unfold __call__. rewrite Hs. simpl.
  unfold final_status, spline_calls.
  destruct (existsb negb (zip_with oob (data a) (data b))) eqn:Eany; simpl.
  - rewrite check_ier_events. simpl.
    fold (in_bounds_mask self (data a) (data b)).
    by rewrite assign_fill_paired.
  - by rewrite fill_all_paired.
Qed.

Lemma call_raises (x y : pyval) (e : exn) :
  _sanitize_inputs x y = (Raise e, []) -> call x y = (Raise e, []).
Proof. intros Hs. unfold __call__. by rewrite Hs. Qed.

Lemma collapse_array (x : pyval) (a : ndarray) :
  collapse x = Arr a -> x = Arr a /\ size a <> 1%nat.
Proof.
  destruct x as [u|a']; simpl; [done|].
  destruct (size a' =? 1)%nat eqn:E; [done|].
  intros [= <-]. by apply Nat.eqb_neq in E.
Qed.

Lemma collapse_well_formed (x : pyval) :
  well_formed_arg x -> well_formed_arg (collapse x).
Proof.
  destruct x as [u|a]; simpl; [done|]. by destruct (size a =? 1)%nat.
Qed.

Lemma zip_with_const_l (u : float) (ys : list float) :
  zip_with pv (map (fun o => u * o) (map (fun _ => 1) ys)) ys
  = map (fun y => pv (u * 1) y) ys.
Proof. induction ys as [|y ys IH]; simpl; [done|]. by rewrite IH. Qed.

(** X24: for a query of numbers and arrays of floats, a point is out of
    bounds exactly when one of the four comparisons holds; out-of-bounds
    points get the fill value and are never handed to the spline evaluator,
    whose single call receives the in-bounds points only; a point inside
    the closed domain, its boundary included, gets the spline's value. *)
Theorem bounds_and_fill_value :
  (forall u v : float,
      oob u v = (u <? x_min self) || (x_max self <? u)
                || ((v <? y_min self) || (y_max self <? v))
      /\ call (Num u) (Num v)
         = if oob u v then (Ok (Num (fill_value self)), [])
           else (checked (ier_of [u] [v]) (Num (spline u v)), [Bispeu [u] [v]]))
  /\
  (forall (x y : pyval) (a b : ndarray),
      _sanitize_inputs x y = (Ok (Arr a, Arr b), []) ->
      length (data a) = length (data b) ->
      exists out,
        call x y
        = (checked (status (data a) (data b)) (Arr (NDArray (shape a) out)),
           calls (data a) (data b)) /\
        length out = length (data a) /\
        (forall k u v,
            data a !! k = Some u -> data b !! k = Some v ->
            out !! k = Some (if oob u v then fill_value self else spline u v)) /\
        Forall2 (fun u v => oob u v = false)
          (select (mask (data a) (data b)) (data a))
          (select (mask (data a) (data b)) (data b)))
  /\
  (forall u v : float,
      (x_min self <=? u) = true -> (u <=? x_max self) = true ->
      (y_min self <=? v) = true -> (v <=? y_max self) = true ->
      oob u v = false /\
      call (Num u) (Num v)
      = (checked (ier_of [u] [v]) (Num (spline u v)), [Bispeu [u] [v]])).
Proof.
  assert (forall u v,
    call (Num u) (Num v)
    = if oob u v then (Ok (Num (fill_value self)), [])
      else (checked (ier_of [u] [v]) (Num (spline u v)), [Bispeu [u] [v]]))
    as Hnum.
  { intros u v. rewrite (call_on_numbers (Num u) (Num v) u v eq_refl).
    unfold final_status, spline_calls, point_value, in_bounds_mask. simpl.
    by destruct (oob u v). }
  split; [|split].
  - intros u v. split; [reflexivity|apply Hnum].
  - intros x y a b Hs Hlen. exists (zip_with pv (data a) (data b)).
    split; [by apply call_on_arrays|]. split.
    + rewrite length_zip_with. lia.
    + split; [|apply selected_in_bounds].
      intros k u v Hu Hv. rewrite lookup_zip_with, Hu. simpl. by rewrite Hv.
  - intros u v Hx1 Hx2 Hy1 Hy2.
    assert (oob u v = false) as Hin.
    { unfold out_of_bounds.
      by rewrite (leb_not_ltb _ _ Hx1), (leb_not_ltb _ _ Hx2),
        (leb_not_ltb _ _ Hy1), (leb_not_ltb _ _ Hy2). }
    split; [done|]. by rewrite Hnum, Hin.
Qed.

(** C6: two arrays with more than one entry each are first brought to a
    common rank by padding the shape of the lower-rank one on the right
    with axes of length 1, then each is broadcast against the other.  When
    the padded shapes agree on every axis up to axes of length 1, both
    reconciled arrays have the broadcast shape, and the entry of each at a
    multi-index is the entry of the original array at that multi-index, read
    at 0 along its axes of length 1 (times one).  Otherwise the call raises
    the error whose message shows the shapes the arrays had on entry, as
    for [(3,)] against [(4,)]. *)
Theorem shape_reconciliation (a b : ndarray) :
  size a <> 1%nat -> size b <> 1%nat ->
  well_formed a -> well_formed b ->
  let sa := shape a ++ replicate (ndim b - ndim a) 1%nat in
  let sb := shape b ++ replicate (ndim a - ndim b) 1%nat in
  let r := zip_with broadcast_axis sa sb in
  length sa = length sb
  /\
  (compatible sa sb ->
   exists x' y' : ndarray,
     _sanitize_inputs (Arr a) (Arr b) = (Ok (Arr x', Arr y'), []) /\
     shape x' = r /\ shape y' = r /\
     length (data x') = product r /\ length (data y') = product r /\
     forall ix, valid_index r ix ->
       exists u v,
         data a !! ravel sa (source_index sa ix) = Some u /\
         data b !! ravel sb (source_index sb ix) = Some v /\
         data x' !! ravel r ix = Some (u * 1) /\
         data y' !! ravel r ix = Some (v * 1))
  /\
  (~ compatible sa sb ->
   let e := ValueError
              ("UnsortedInterp2d received incompatibly shaped arrays: "
               ++ repr_shapes (shape a, shape b)) in
   _sanitize_inputs (Arr a) (Arr b) = (Raise e, []) /\
   call (Arr a) (Arr b) = (Raise e, []))
  /\
  (forall d3 d4 : list float,
      call (Arr (NDArray [3%nat] d3)) (Arr (NDArray [4%nat] d4))
      = (Raise (ValueError
           "UnsortedInterp2d received incompatibly shaped arrays: ((3,), (4,))"),
         [])).
Proof.
  intros Ha Hb Hwa Hwb. cbv zeta.
  pose proof (sanitize_arrays a b Ha Hb) as Hs. cbv zeta in Hs.
  unfold right_padded in Hs. simpl in Hs. unfold ndim in *.
  set (sa := shape a ++ replicate (length (shape b) - length (shape a)) 1%nat) in *.
  set (sb := shape b ++ replicate (length (shape a) - length (shape b)) 1%nat) in *.
  assert (length sa = length sb) as Hlen
    by (unfold sa, sb; rewrite !length_app, !length_replicate; lia).
  assert (length (data a) = product sa) as Hda.
  { unfold sa. rewrite product_app, product_ones.
    unfold well_formed, size in Hwa. lia. }
  assert (length (data b) = product sb) as Hdb.
  { unfold sb. rewrite product_app, product_ones.
    unfold well_formed, size in Hwb. lia. }
  split; [exact Hlen|]. split; [|split].
  - intros Hc. rewrite (broadcast_shapes_compatible sa sb Hc) in Hs.
    destruct (compatible_stretches sa sb Hc) as [Hsa Hsb].
    eexists _, _. split; [exact Hs|]. simpl.
    split; [done|]. split; [done|]. rewrite !length_map.
    split; [|split].
    + unfold broadcast_to, ndim. simpl.
      rewrite (Forall2_length _ _ _ Hsa), Nat.sub_diag. simpl.
      by apply stretch_length.
    + unfold broadcast_to, ndim. simpl.
      rewrite (Forall2_length _ _ _ Hsb), Nat.sub_diag. simpl.
      by apply stretch_length.
    + intros ix Hix.
      destruct (broadcast_to_lookup sa _ (data a) ix Hsa Hda Hix) as (u & Hu & Hx).
      destruct (broadcast_to_lookup sb _ (data b) ix Hsb Hdb Hix) as (v & Hv & Hy).
      by exists u, v.
  - intros Hno. rewrite (broadcast_shapes_incompatible sa sb Hlen Hno) in Hs.
    split; [exact Hs|]. by apply call_raises.
  - intros d3 d4. by apply call_raises.
Qed.

(** C7 (amended): evaluation pairs the reconciled arguments entry by
    entry.  When both arguments are numbers or single-entry arrays the
    result is a number; otherwise it is an array of the reconciled shape
    whose entry [k] is the value of the point [(x[k], y[k])]; a number [x]
    with five entries [y] gives five entries, the k-th computed from [x]
    and [y[k]] alone. *)
Theorem paired_evaluation (x y : pyval) :
  well_formed_arg x -> well_formed_arg y ->
  match collapse x, collapse y with
  | Num u, Num v =>
      fst (call x y) = checked (status [u] [v]) (Num (pv u v))
  | _, _ =>
      match reconciled_shape x y with
      | Some r =>
          exists a b,
            _sanitize_inputs x y = (Ok (Arr a, Arr b), []) /\
            shape a = r /\ shape b = r /\ well_formed a /\ well_formed b /\
            fst (call x y)
            = checked (status (data a) (data b))
                (Arr (NDArray r (zip_with pv (data a) (data b))))
      | None => exists e, call x y = (Raise e, [])
      end
  end
  /\
  (forall (u : float) (ys : list float),
      length ys = 5%nat ->
      fst (call (Num u) (Arr (NDArray [5%nat] ys)))
      = checked (status (map (fun _ => u * 1) ys) ys)
          (Arr (NDArray [5%nat] (map (fun y => pv (u * 1) y) ys)))).
Proof.
  intros Hx Hy.
  assert (forall a b r,
    _sanitize_inputs x y = (Ok (Arr a, Arr b), []) ->
    shape a = r -> shape b = r -> well_formed a -> well_formed b ->
    exists a b,
      _sanitize_inputs x y = (Ok (Arr a, Arr b), []) /\
      shape a = r /\ shape b = r /\ well_formed a /\ well_formed b /\
      fst (call x y)
      = checked (status (data a) (data b))
          (Arr (NDArray r (zip_with pv (data a) (data b))))) as Hfin.
  { intros a b r Hs Hsa Hsb Hwa Hwb. exists a, b. repeat split; try done.
    rewrite (call_on_arrays x y a b Hs); [by rewrite Hsa|].
    unfold well_formed, size in *. congruence. }
  split.
  - apply collapse_well_formed in Hx, Hy.
    unfold reconciled_shape.
    destruct (collapse x) as [u|a] eqn:Ex, (collapse y) as [v|b] eqn:Ey.
    + rewrite (call_on_numbers x y u v); [done|].
      unfold _sanitize_inputs. by rewrite Ex, Ey.
    + apply (Hfin (scalar_mul u (ones_like b)) b); try done.
      * unfold _sanitize_inputs. by rewrite Ex, Ey.
      * unfold well_formed, scalar_mul, ones_like, size in *. simpl.
        by rewrite !length_map.
    + apply (Hfin a (scalar_mul v (ones_like a))); try done.
      * unfold _sanitize_inputs. by rewrite Ex, Ey.
      * unfold well_formed, scalar_mul, ones_like, size in *. simpl.
        by rewrite !length_map.
    + apply collapse_array in Ex as [-> Ha], Ey as [-> Hb].
      pose proof (sanitize_arrays a b Ha Hb) as Hs. cbv zeta in Hs.
      pose proof (sanitize_arrays_well_formed a b) as Hwf. cbv zeta in Hwf.
      simpl in Hs, Hwf.
      destruct (broadcast_shapes _ _) as [r|] eqn:Er.
      * destruct (Hwf r Hx Hy eq_refl) as [Hwa Hwb].
        by eapply Hfin.
      * eexists. by apply call_raises.
  - intros u ys Hlen.
    rewrite (call_on_arrays (Num u) (Arr (NDArray [5%nat] ys))
               (scalar_mul u (ones_like (NDArray [5%nat] ys)))
               (NDArray [5%nat] ys)).
    + simpl. rewrite zip_with_const_l. do 2 f_equal.
      by rewrite map_map.
    + reflexivity.
    + simpl. by rewrite !length_map.
Qed.

End CallFacts.

Import Examples.

Lemma bounds_and_fill_value_witness :
  (exists out,
      __call__ plane no_error 0 surface (Num 2) (Arr (NDArray [3%nat] [1; 4; 3]))
      = (checked (final_status no_error surface [2 * 1; 2 * 1; 2 * 1] [1; 4; 3])
           (Arr (NDArray [3%nat] out)),
         spline_calls surface [2 * 1; 2 * 1; 2 * 1] [1; 4; 3]) /\
      out !! 1%nat = Some (-1) /\ out !! 2%nat = Some (plane 2 3)) /\
  out_of_bounds surface 0 3 = false /\
  __call__ plane no_error 0 surface (Num 0) (Num 3)
  = (checked (no_error [0] [3]) (Num (plane 0 3)), [Bispeu [0] [3]]).
Proof.
  destruct (bounds_and_fill_value plane no_error 0 surface) as (_ & Harr & Hin).
  split.
  - destruct (Harr (Num 2) (Arr (NDArray [3%nat] [1; 4; 3]))
                (NDArray [3%nat] [2 * 1; 2 * 1; 2 * 1]) (NDArray [3%nat] [1; 4; 3]))
      as (out & Hcall & _ & Hout & _).
    + reflexivity.
    + reflexivity.
    + exists out. split; [exact Hcall|]. split.
      * apply (Hout 1%nat (2 * 1) 4); reflexivity.
      * apply (Hout 2%nat (2 * 1) 3); reflexivity.
  - apply Hin; vm_compute; reflexivity.
Defined.

Lemma shape_reconciliation_witness :
  exists x' y' : ndarray,
    _sanitize_inputs (Arr (NDArray [2%nat; 3%nat] [0; 1; 2; 3; 4; 5]))
                     (Arr (NDArray [2%nat] [10; 20]))
    = (Ok (Arr x', Arr y'), []) /\
    shape x' = [2%nat; 3%nat] /\ shape y' = [2%nat; 3%nat] /\
    data x' !! 5%nat = Some (5 * 1) /\ data y' !! 5%nat = Some (20 * 1) /\
    data x' !! 1%nat = Some (1 * 1) /\ data y' !! 1%nat = Some (10 * 1).
Proof.
  assert (size (NDArray [2%nat; 3%nat] [0; 1; 2; 3; 4; 5]) <> 1%nat) as Ha
    by (vm_compute; lia).
  assert (size (NDArray [2%nat] [10; 20]) <> 1%nat) as Hb by (vm_compute; lia).
  destruct (shape_reconciliation plane no_error 0 surface _ _ Ha Hb
              eq_refl eq_refl) as (_ & H & _).
  destruct H as (x' & y' & Hs & Hx & Hy & _ & _ & Hentries).
  { repeat constructor; lia. }
  exists x', y'. split; [exact Hs|]. split; [exact Hx|]. split; [exact Hy|].
  destruct (Hentries [1%nat; 2%nat]) as (u & v & Hu & Hv & Hxu & Hyv).
  { repeat constructor; lia. }
  destruct (Hentries [0%nat; 1%nat]) as (u' & v' & Hu' & Hv' & Hxu' & Hyv').
  { repeat constructor; lia. }
  simpl in Hu, Hv, Hu', Hv'.
  injection Hu as <-. injection Hv as <-.
  injection Hu' as <-. injection Hv' as <-.
  repeat split; assumption.
Defined.

(** The reconciliation above, computed: the second array is stretched along
    the axis it was padded with. *)
Example shape_reconciliation_computed :
  _sanitize_inputs (Arr (NDArray [2%nat; 3%nat] [0; 1; 2; 3; 4; 5]))
                   (Arr (NDArray [2%nat] [10; 20]))
  = (Ok (Arr (NDArray [2%nat; 3%nat] [0; 1; 2; 3; 4; 5]),
         Arr (NDArray [2%nat; 3%nat] [10; 10; 10; 20; 20; 20])), []).
Proof. vm_compute. reflexivity. Qed.

Lemma paired_evaluation_witness :
  fst (__call__ plane no_error 0 surface (Num 1)
         (Arr (NDArray [5%nat] [0; 1; 2; 3; 4])))
  = checked (final_status no_error surface
               (map (fun _ => 1 * 1) [0; 1; 2; 3; 4]) [0; 1; 2; 3; 4])
      (Arr (NDArray [5%nat]
              (map (fun y => point_value plane surface (1 * 1) y)
                 [0; 1; 2; 3; 4]))).
Proof.
  assert (well_formed_arg (Num 1)) as Hx by exact I.
  assert (well_formed_arg (Arr (NDArray [5%nat] [0; 1; 2; 3; 4]))) as Hy
    by reflexivity.
  destruct (paired_evaluation plane no_error 0 surface _ _ Hx Hy) as [_ H].
  apply (H 1 [0; 1; 2; 3; 4]). reflexivity.
Defined.

(** The claim C7 as stated fails: two arrays with one entry each are array
    inputs, and the result is a number, not an array of shape [(1,)]. *)
Lemma single_entry_arrays_give_a_number :
  __call__ plane no_error 0 surface
    (Arr (NDArray [1%nat] [1])) (Arr (NDArray [1%nat] [2]))
  = (Ok (Num 12), [Bispeu [1] [2]]).
Proof. vm_compute. reflexivity. Qed.

End SurfaceFacts.

(** ** Further properties of the gradient estimator *)

Module GradientProperties.

Import GradientEstimator Measures.
Local Open Scope float_scope.


Lemma warnings_app (e1 e2 : list event) :
  warnings (e1 ++ e2) = (warnings e1 + warnings e2)%nat.
Proof.
  induction e1 as [|[v|m] e1 IH]; simpl; [done|done|]. by rewrite IH.
Qed.

Lemma off_axis_perturb (vals : list float) (i : Z) (f : float -> float)
    (v : list float) :
  off_axis vals i v -> off_axis vals i (perturb f i v).
Proof.
  intros [Hl Hj]. unfold perturb. split.
  - by rewrite length_alter.
  - intros j Hne. rewrite list_lookup_alter_ne by done. by apply Hj.
Qed.

Lemma off_axis_refl (vals : list float) (i : Z) : off_axis vals i vals.
Proof. by split. Qed.

Section Loop.

Variable func : list float -> float.
Variables mineps reltol epsscale : float.

Local Abbreviation body := (body func mineps reltol epsscale).
Local Abbreviation while_loop := (while_loop func mineps reltol epsscale).
Local Abbreviation gives_up := (gives_up mineps epsscale).
Local Abbreviation runs := (runs func mineps reltol epsscale).
Local Abbreviation component := (component func mineps reltol epsscale).
Local Abbreviation for_loop := (for_loop func mineps reltol epsscale).
Local Abbreviation derivatives := (derivatives func mineps reltol epsscale).
Local Abbreviation reaches := (reaches func mineps reltol epsscale).
Local Abbreviation body_unfold := (GradientFacts.body_unfold func mineps reltol epsscale).

(** The three ways a pass can end. *)
Lemma body_cases (i : Z) (st : loop_state) :
  fits i st ->
  let fv := shrunk_fvals epsscale i st in
  let bv := shrunk_bvals epsscale i st in
  let cdiffnew := shrunk_difference func epsscale i st in
  (gives_up st = true /\
   body i st = (Ok (inl 0), [LogWarning no_convergence]))
  \/
  (gives_up st = false /\
   exists g, judge reltol (cdiff st) cdiffnew (flipflop st) = inl g /\
             body i st = (Ok (inl g), [EvalFunc fv; EvalFunc bv]))
  \/
  (gives_up st = false /\
   exists c ff,
     judge reltol (cdiff st) cdiffnew (flipflop st) = inr (c, ff) /\
     body i st
     = (Ok (inr (LoopState (leps st * epsscale) (cureps st * epsscale) ff fv bv c)),
        [EvalFunc fv; EvalFunc bv])).
Proof.
  intros Hfit. cbv zeta. rewrite (body_unfold i st Hfit).
  destruct (gives_up st); [by left|]. right.
  destruct (judge _ _ _ _) as [g|[c ff]]; [left|right]; split; eauto.
Qed.

Lemma runs_trans (i : Z) (st1 st2 st3 : loop_state) :
  runs i st1 st2 -> runs i st2 st3 -> runs i st1 st3.
Proof.
  induction 1 as [|st st1 st2 evs Hb Hr IH]; [done|].
  intros H. eapply runs_on; [exact Hb|]. by apply IH.
Qed.

(** How a loop that returns has ended: in a state that gives up, with the
    value zero and one warning, or in a state whose shrunk difference the
    convergence test accepts, with no warning. *)
Lemma while_loop_end (fuel : nat) (i : Z) (st : loop_state) (g : float)
    (evs : list event) :
  fits i st ->
  while_loop fuel i st = (Ok g, evs) ->
  exists st',
    runs i st st' /\ fits i st' /\
    ((gives_up st' = true /\ g = 0 /\ warnings evs = 1%nat)
     \/
     (gives_up st' = false /\ warnings evs = 0%nat /\
      judge reltol (cdiff st') (shrunk_difference func epsscale i st')
        (flipflop st') = inl g)).
Proof.
  revert st g evs. induction fuel as [|fuel IH]; intros st g evs Hfit Hw; [done|].
  simpl in Hw.
  destruct (body_cases i st Hfit)
    as [[Hg Hb]|[(Hg & g' & Hj & Hb)|(Hg & c & ff & Hj & Hb)]];
    rewrite Hb in Hw; simpl in Hw.
  - injection Hw as <- <-. exists st. split; [constructor|]. split; [done|].
    left. done.
  - injection Hw as <- <-. exists st. split; [constructor|]. split; [done|].
    right. done.
  - destruct (GradientEstimator.while_loop _ _ _ _ fuel i _)
      as [[g'| |] ev2] eqn:Hw'; try done.
    injection Hw as <- <-.
    destruct (IH _ g' ev2 (GradientFacts.fits_shrunk epsscale i st _ _ _ _ Hfit) Hw')
      as (st' & Hruns & Hfit' & Hend).
    exists st'. split; [by eapply runs_on|]. split; [done|].
    simpl. exact Hend.
Qed.

(** *** One component *)

Lemma start_unfold (vals eps teps : list float) (i : Z) :
  in_range vals i -> length eps = length vals -> length teps = length vals ->
  exists l c,
    eps !! Z.to_nat i = Some l /\ teps !! Z.to_nat i = Some c /\
    let fv := perturb (fun v => v + 0.5 * l) i vals in
    let bv := perturb (fun v => v - 0.5 * l) i vals in
    start func vals eps teps i
    = (Ok (LoopState l c 0 fv bv ((func fv - func bv) / l)),
       [EvalFunc fv; EvalFunc bv]).
Proof.
  intros Hi He Ht. unfold start.
  destruct (GradientFacts.getitem_in_range eps i) as (l & Hl & ->);
    [unfold in_range in *; lia|].
  destruct (GradientFacts.getitem_in_range teps i) as (c & Hc & ->);
    [unfold in_range in *; lia|].
  exists l, c. split; [done|]. split; [done|]. simpl.
  by rewrite GradientFacts.central_difference_perturb.
Qed.

Lemma start_fits (vals eps teps : list float) (i : Z) (st : loop_state)
    (evs : list event) :
  in_range vals i -> length eps = length vals -> length teps = length vals ->
  start func vals eps teps i = (Ok st, evs) ->
  fits i st /\ flipflop st = 0%Z /\
  off_axis vals i (fvals st) /\ off_axis vals i (bvals st) /\
  teps !! Z.to_nat i = Some (cureps st) /\
  evs = [EvalFunc (fvals st); EvalFunc (bvals st)].
Proof.
  intros Hi He Ht Hs.
  destruct (start_unfold vals eps teps i Hi He Ht) as (l & c & _ & Hc & Hst).
  cbv zeta in Hst. rewrite Hst in Hs. injection Hs as <- <-. simpl.
  split; [split; simpl; by apply GradientFacts.in_range_perturb|].
  split; [done|].
  split; [by apply off_axis_perturb, off_axis_refl|].
  split; [by apply off_axis_perturb, off_axis_refl|]. done.
Qed.

(** A component that returns: the entry state and the run of the loop. *)
Lemma component_split (fuel : nat) (vals eps teps : list float) (i : Z)
    (g : float) (evs : list event) :
  in_range vals i -> length eps = length vals -> length teps = length vals ->
  component fuel vals eps teps i = (Ok g, evs) ->
  exists st0 ev1,
    start func vals eps teps i
    = (Ok st0, [EvalFunc (fvals st0); EvalFunc (bvals st0)]) /\
    while_loop fuel i st0 = (Ok g, ev1) /\
    evs = [EvalFunc (fvals st0); EvalFunc (bvals st0)] ++ ev1.
Proof.
  intros Hi He Ht Hc. unfold GradientEstimator.component in Hc.
  destruct (start func vals eps teps i) as [[st0| |] ev0] eqn:Hs; try done.
  destruct (start_fits vals eps teps i st0 ev0 Hi He Ht Hs)
    as (_ & _ & _ & _ & _ & ->).
  simpl in Hc.
  destruct (GradientEstimator.while_loop _ _ _ _ fuel i st0)
    as [[g'| |] ev1] eqn:Hw; try done.
  injection Hc as <- <-. by exists st0, ev1.
Qed.

(** *** The [for] loop, component by component *)

Lemma for_loop_components (fuel : nat) (vals eps teps : list float)
    (idx : list Z) (grads grads' : list float) (count : nat)
    (evs : list event) :
  Forall (in_range vals) idx ->
  (count + length idx <= length grads)%nat ->
  for_loop fuel vals eps teps idx grads count = (Ok grads', evs) ->
  exists comps : list (float * list event),
    Forall2 (fun i c => component fuel vals eps teps i = (Ok (fst c), snd c))
      idx comps /\
    evs = concat (map snd comps) /\
    grads' = take count grads ++ map fst comps
             ++ drop (count + length idx) grads.
Proof.
  intros Hidx. revert grads grads' count evs.
  induction Hidx as [|i idx Hi Hidx IH]; intros grads grads' count evs Hlen Hf.
  { simpl in Hf. injection Hf as <- <-. exists []. split; [constructor|].
    split; [done|]. simpl. by rewrite Nat.add_0_r, take_drop. }
  simpl in Hlen, Hf.
  destruct (component fuel vals eps teps i) as [[g| |] ev1] eqn:Hc;
    simpl in Hf; try done.
  rewrite GradientFacts.setitem_count in Hf by lia. simpl in Hf.
  destruct (GradientEstimator.for_loop _ _ _ _ _ _ _ _ _ _ _)
    as [[gs| |] ev2] eqn:Hrest; try done.
  injection Hf as <- <-.
  destruct (IH (<[count := g]> grads) gs (S count) ev2)
    as (comps & Hcomps & -> & ->); [rewrite length_insert; lia|done|].
  exists ((g, ev1) :: comps). split; [by constructor|]. split; [done|].
  simpl.
  rewrite (take_S_r _ _ g) by (apply list_lookup_insert_eq; lia).
  rewrite take_insert_ge by lia. rewrite drop_insert_lt by lia.
  rewrite <- app_assoc. simpl.
  by rewrite Nat.add_succ_r.
Qed.

Lemma derivatives_split (fuel : nat) (vals : list float) (releps : step_arg)
    (abseps : option step_arg) (nonfixedidx : option (list Z))
    (idx : list Z) (eps teps : list float) (evs0 : list event)
    (grads : list float) (evs : list event) :
  prevalidation vals releps abseps nonfixedidx = (Ok (idx, eps, teps), evs0) ->
  derivatives fuel vals releps abseps nonfixedidx = (Ok grads, evs) ->
  Forall (in_range vals) idx /\
  length eps = length vals /\ length teps = length vals /\
  exists comps : list (float * list event),
    Forall2 (fun i c => component fuel vals eps teps i = (Ok (fst c), snd c))
      idx comps /\
    evs = concat (map snd comps) /\ grads = map fst comps.
Proof.
  intros Hpre Hd.
  destruct (GradientFacts.prevalidation_steps _ _ _ _ _ _ _ _ Hpre)
    as (_ & _ & -> & Hidx & He & Ht).
  repeat split; try done.
  unfold GradientEstimator.derivatives in Hd. rewrite Hpre in Hd. simpl in Hd.
  destruct (GradientEstimator.for_loop _ _ _ _ _ _ _ _ _ _ _)
    as [[gs| |] ev2] eqn:Hf; try done.
  injection Hd as <- <-.
  apply for_loop_components in Hf as (comps & Hcomps & -> & ->);
    [|done|rewrite repeat_length; lia].
  exists comps. split; [done|]. split; [done|].
  simpl. rewrite drop_ge by (rewrite repeat_length; lia).
  by rewrite app_nil_r.
Qed.

(** X1: the gradient lists the components of the requested indices in the
    order in which they were requested, and the log is the concatenation of
    the components' logs in that order. *)
Theorem gradient_in_requested_order (fuel : nat) (vals : list float)
    (releps : step_arg) (abseps : option step_arg)
    (nonfixedidx : option (list Z)) (idx : list Z) (eps teps : list float)
    (evs0 : list event) (grads : list float) (evs : list event) :
  prevalidation vals releps abseps nonfixedidx = (Ok (idx, eps, teps), evs0) ->
  derivatives fuel vals releps abseps nonfixedidx = (Ok grads, evs) ->
  length grads = length idx /\
  (forall k i, idx !! k = Some i ->
     exists g ev, component fuel vals eps teps i = (Ok g, ev) /\
                  grads !! k = Some g) /\
  exists logs : list (list event),
    evs = concat logs /\
    Forall2 (fun i ev => exists g, component fuel vals eps teps i = (Ok g, ev))
      idx logs.
Proof.
  intros Hpre Hd.
  destruct (derivatives_split fuel _ _ _ _ _ _ _ _ _ _ Hpre Hd)
    as (_ & _ & _ & comps & Hcomps & -> & ->).
  split; [rewrite length_map; symmetry; by eapply Forall2_length|].
  split.
  - intros k i Hk.
    destruct (Forall2_lookup_l _ _ _ _ _ Hcomps Hk) as ([g ev] & Hck & Hc).
    exists g, ev. split; [done|]. by rewrite list_lookup_fmap, Hck.
  - exists (map snd comps). split; [done|].
    apply Forall2_fmap_r. eapply Forall2_impl; [exact Hcomps|].
    intros i [g ev] Hc. by exists g.
Qed.

(** *** Where the objective is evaluated *)

Lemma while_loop_points (fuel : nat) (vals : list float) (i : Z)
    (st : loop_state) (r : res float) (evs : list event) :
  fits i st -> off_axis vals i (fvals st) -> off_axis vals i (bvals st) ->
  while_loop fuel i st = (r, evs) ->
  forall v, EvalFunc v ∈ evs -> off_axis vals i v.
Proof.
  revert st r evs. induction fuel as [|fuel IH]; intros st r evs Hfit Hf Hb Hw v Hv.
  { simpl in Hw. injection Hw as <- <-. by apply elem_of_nil in Hv. }
  assert (off_axis vals i (shrunk_fvals epsscale i st)) as Hf'
    by (by do 2 apply off_axis_perturb).
  assert (off_axis vals i (shrunk_bvals epsscale i st)) as Hb'
    by (by do 2 apply off_axis_perturb).
  simpl in Hw.
  destruct (body_cases i st Hfit)
    as [[Hg Hbody]|[(Hg & g' & Hj & Hbody)|(Hg & c & ff & Hj & Hbody)]];
    rewrite Hbody in Hw; simpl in Hw.
  - injection Hw as <- <-. apply list_elem_of_singleton in Hv. done.
  - injection Hw as <- <-.
    apply elem_of_cons in Hv as [[= ->]|Hv]; [done|].
    apply list_elem_of_singleton in Hv as [= ->]. done.
  - destruct (GradientEstimator.while_loop _ _ _ _ fuel i _)
      as [r' ev2] eqn:Hw'.
    injection Hw as <- <-.
    apply elem_of_cons in Hv as [[= ->]|Hv]; [done|].
    apply elem_of_cons in Hv as [[= ->]|Hv]; [done|].
    exact (IH _ r' ev2 (GradientFacts.fits_shrunk epsscale i st _ _ _ _ Hfit)
             Hf' Hb' Hw' v Hv).
Qed.

Lemma component_points (fuel : nat) (vals eps teps : list float) (i : Z)
    (r : res float) (evs : list event) :
  in_range vals i -> length eps = length vals -> length teps = length vals ->
  component fuel vals eps teps i = (r, evs) ->
  forall v, EvalFunc v ∈ evs -> off_axis vals i v.
Proof.
  intros Hi He Ht Hc v Hv. unfold GradientEstimator.component in Hc.
  destruct (start func vals eps teps i) as [[st0| |] ev0] eqn:Hs;
    try (destruct (start_unfold vals eps teps i Hi He Ht) as (l & c & _ & _ & Hst);
         cbv zeta in Hst; congruence).
  destruct (start_fits vals eps teps i st0 ev0 Hi He Ht Hs)
    as (Hfit & _ & Hf & Hb & _ & ->).
  simpl in Hc.
  destruct (GradientEstimator.while_loop _ _ _ _ fuel i st0)
    as [r' ev1] eqn:Hw.
  injection Hc as <- <-.
  apply elem_of_cons in Hv as [[= ->]|Hv]; [done|].
  apply elem_of_cons in Hv as [[= ->]|Hv]; [done|].
  by eapply (while_loop_points fuel vals i st0 r' ev1).
Qed.

Lemma for_loop_points (fuel : nat) (vals eps teps : list float)
    (idx : list Z) (grads : list float) (count : nat)
    (r : res (list float)) (evs : list event) :
  Forall (in_range vals) idx ->
  length eps = length vals -> length teps = length vals ->
  for_loop fuel vals eps teps idx grads count = (r, evs) ->
  forall v, EvalFunc v ∈ evs -> exists i, i ∈ idx /\ off_axis vals i v.
Proof.
  intros Hidx He Ht. revert grads count r evs.
  induction Hidx as [|i idx Hi Hidx IH]; intros grads count r evs Hf v Hv.
  { simpl in Hf. injection Hf as <- <-. by apply elem_of_nil in Hv. }
  simpl in Hf.
  destruct (component fuel vals eps teps i) as [rc ev1] eqn:Hc.
  pose proof (component_points fuel vals eps teps i rc ev1 Hi He Ht Hc) as Hpts.
  destruct rc as [g| |]; simpl in Hf.
  - destruct (setitem grads (Z.of_nat count) g) as [[grads1| |] ev2] eqn:Hset;
      simpl in Hf.
    + assert (ev2 = []) as ->.
      { unfold setitem, moditem, getitem in Hset.
        destruct (py_index grads (Z.of_nat count)); [|done].
        destruct (grads !! n); simpl in Hset; congruence. }
      destruct (GradientEstimator.for_loop _ _ _ _ _ _ _ _ _ _ _)
        as [r' ev3] eqn:Hrest.
      injection Hf as <- <-. simpl in Hv.
      apply elem_of_app in Hv as [Hv|Hv].
      * exists i. split; [left|by apply Hpts].
      * destruct (IH _ _ _ _ Hrest v Hv) as (j & Hj & Hoff).
        exists j. split; [by right|done].
    + injection Hf as <- <-. apply elem_of_app in Hv as [Hv|Hv].
      * exists i. split; [left|by apply Hpts].
      * unfold setitem, moditem, getitem in Hset.
        destruct (py_index grads (Z.of_nat count)); [|injection Hset as _ <-; by apply elem_of_nil in Hv].
        destruct (grads !! n); simpl in Hset; injection Hset as ? <-;
          by apply elem_of_nil in Hv.
    + injection Hf as <- <-. apply elem_of_app in Hv as [Hv|Hv].
      * exists i. split; [left|by apply Hpts].
      * unfold setitem, moditem, getitem in Hset.
        destruct (py_index grads (Z.of_nat count)); [|done].
        destruct (grads !! n); simpl in Hset; done.
  - injection Hf as <- <-. exists i. split; [left|by apply Hpts].
  - injection Hf as <- <-. exists i. split; [left|by apply Hpts].
Qed.

(** X2: the objective is only ever evaluated at vectors of the length of
    [vals] that agree with [vals] everywhere except at one requested
    index, whatever the outcome of the call. *)
Theorem evaluated_off_one_axis (fuel : nat) (vals : list float)
    (releps : step_arg) (abseps : option step_arg)
    (nonfixedidx : option (list Z)) (r : res (list float))
    (evs : list event) (v : list float) :
  derivatives fuel vals releps abseps nonfixedidx = (r, evs) ->
  EvalFunc v ∈ evs ->
  exists i, i ∈ index_set vals nonfixedidx /\ off_axis vals i v.
Proof.
  intros Hd Hv. unfold GradientEstimator.derivatives in Hd.
  destruct (GradientFacts.prevalidation_outcome vals releps abseps nonfixedidx)
    as [(e & He & _)|(eps & teps & Hpre & _ & _ & Hidx & Hle & Hlt & _)].
  - rewrite He in Hd. injection Hd as <- <-. by apply elem_of_nil in Hv.
  - rewrite Hpre in Hd. simpl in Hd.
    destruct (GradientEstimator.for_loop _ _ _ _ _ _ _ _ _ _ _)
      as [r' ev2] eqn:Hf.
    injection Hd as <- <-.
    exact (for_loop_points fuel vals eps teps _ _ _ r' ev2 Hidx Hle Hlt Hf v Hv).
Qed.

(** X21: when the tracking scale of an index is below [mineps] after its
    first scaling, the component is zero with a warning, yet the objective
    has been evaluated twice for the initial difference that is then
    discarded. *)
Theorem immediate_give_up (fuel : nat) (vals eps teps : list float) (i : Z)
    (l c : float) :
  in_range vals i -> length eps = length vals -> length teps = length vals ->
  eps !! Z.to_nat i = Some l -> teps !! Z.to_nat i = Some c ->
  (c * epsscale <? mineps) = true ->
  component (S fuel) vals eps teps i
  = (Ok 0, [EvalFunc (perturb (fun v => v + 0.5 * l) i vals);
            EvalFunc (perturb (fun v => v - 0.5 * l) i vals);
            LogWarning no_convergence]).
Proof.
  intros Hi He Ht Hl Hc Hlow.
  destruct (start_unfold vals eps teps i Hi He Ht) as (l' & c' & Hl' & Hc' & Hst).
  rewrite Hl in Hl'. rewrite Hc in Hc'. injection Hl' as <-. injection Hc' as <-.
  cbv zeta in Hst.
  destruct (start_fits vals eps teps i _ _ Hi He Ht Hst) as (Hfit & _).
  unfold GradientEstimator.component. rewrite Hst. simpl.
  rewrite GradientFacts.body_gives_up; [done|exact Hfit|].
  unfold GradientEstimator.gives_up. simpl. by rewrite Hlow.
Qed.

(** X22: the entry of an index does not depend on which other indices are
    requested with it, nor on its position among them. *)
Theorem entry_independent_of_other_indices (fuel : nat) (vals : list float)
    (releps : step_arg) (abseps : option step_arg)
    (requested1 requested2 : option (list Z))
    (idx1 idx2 : list Z) (eps1 teps1 eps2 teps2 : list float)
    (ev1 ev2 : list event) (grads1 grads2 : list float)
    (evs1 evs2 : list event) (k1 k2 : nat) (i : Z) :
  prevalidation vals releps abseps requested1 = (Ok (idx1, eps1, teps1), ev1) ->
  prevalidation vals releps abseps requested2 = (Ok (idx2, eps2, teps2), ev2) ->
  derivatives fuel vals releps abseps requested1 = (Ok grads1, evs1) ->
  derivatives fuel vals releps abseps requested2 = (Ok grads2, evs2) ->
  idx1 !! k1 = Some i -> idx2 !! k2 = Some i ->
  exists g : float, grads1 !! k1 = Some g /\ grads2 !! k2 = Some g.
Proof.
  intros Hp1 Hp2 Hd1 Hd2 Hk1 Hk2.
  destruct (derivatives_split fuel _ _ _ _ _ _ _ _ _ _ Hp1 Hd1)
    as (_ & _ & _ & comps1 & Hc1 & _ & ->).
  destruct (derivatives_split fuel _ _ _ _ _ _ _ _ _ _ Hp2 Hd2)
    as (_ & _ & _ & comps2 & Hc2 & _ & ->).
  destruct (GradientFacts.prevalidation_steps _ _ _ _ _ _ _ _ Hp1) as (Hs1 & _).
  destruct (GradientFacts.prevalidation_steps _ _ _ _ _ _ _ _ Hp2) as (Hs2 & _).
  rewrite Hs1 in Hs2. injection Hs2 as <- <-.
  destruct (Forall2_lookup_l _ _ _ _ _ Hc1 Hk1) as ([g1 e1] & Hck1 & Hg1).
  destruct (Forall2_lookup_l _ _ _ _ _ Hc2 Hk2) as ([g2 e2] & Hck2 & Hg2).
  exists g1. rewrite !list_lookup_fmap, Hck1, Hck2. simpl in *.
  split; [done|]. congruence.
Qed.

(** *** The cost of a call *)




(** *** Entries and warnings *)


(** A component that returns ends in a state its loop reaches: one that
    gives up, with the entry zero and one warning, or one whose shrunk
    difference is accepted, with no warning. *)
Lemma component_end (fuel : nat) (vals eps teps : list float) (i : Z)
    (g : float) (evs : list event) :
  in_range vals i -> length eps = length vals -> length teps = length vals ->
  component fuel vals eps teps i = (Ok g, evs) ->
  exists st,
    reaches vals eps teps i st /\
    ((gives_up st = true /\ g = 0 /\ warnings evs = 1%nat)
     \/
     (gives_up st = false /\ warnings evs = 0%nat /\
      judge reltol (cdiff st) (shrunk_difference func epsscale i st)
        (flipflop st) = inl g)).
Proof.
  intros Hi He Ht Hc.
  destruct (component_split fuel vals eps teps i g evs Hi He Ht Hc)
    as (st0 & ev1 & Hs & Hw & ->).
  destruct (start_fits vals eps teps i _ _ Hi He Ht Hs) as (Hfit & _).
  destruct (while_loop_end fuel i st0 g ev1 Hfit Hw) as (st & Hruns & _ & Hend).
  exists st. split; [by eexists st0, _|]. simpl. exact Hend.
Qed.

(** X4: every entry of a returned gradient is either the zero of an index
    whose loop gave up, or an estimate that the convergence test accepted
    in a state the loop of that index reached. *)
Theorem entry_flat_or_accepted (fuel : nat) (vals : list float)
    (releps : step_arg) (abseps : option step_arg)
    (nonfixedidx : option (list Z)) (idx : list Z) (eps teps : list float)
    (evs0 : list event) (grads : list float) (evs : list event)
    (k : nat) (i : Z) :
  prevalidation vals releps abseps nonfixedidx = (Ok (idx, eps, teps), evs0) ->
  derivatives fuel vals releps abseps nonfixedidx = (Ok grads, evs) ->
  idx !! k = Some i ->
  exists g st,
    grads !! k = Some g /\ reaches vals eps teps i st /\
    ((gives_up st = true /\ g = 0)
     \/
     (gives_up st = false /\
      judge reltol (cdiff st) (shrunk_difference func epsscale i st)
        (flipflop st) = inl g)).
Proof.
  intros Hpre Hd Hk.
  destruct (derivatives_split fuel _ _ _ _ _ _ _ _ _ _ Hpre Hd)
    as (Hidx & He & Ht & comps & Hcomps & -> & ->).
  destruct (Forall2_lookup_l _ _ _ _ _ Hcomps Hk) as ([g ev] & Hck & Hc).
  rewrite Forall_forall in Hidx.
  assert (in_range vals i) as Hi by (apply Hidx; by eapply list_elem_of_lookup_2).
  destruct (component_end fuel vals eps teps i g ev Hi He Ht Hc)
    as (st & Hreach & [(Hg & -> & _)|(Hg & _ & Hj)]).
  - exists 0, st. rewrite list_lookup_fmap, Hck. split; [done|].
    split; [done|]. by left.
  - exists g, st. rewrite list_lookup_fmap, Hck. split; [done|].
    split; [done|]. by right.
Qed.


(** *** The sign-flip counter *)

Lemma judge_flipflop (c c' : float) (ff : Z) (d : float) (ff' : Z) :
  judge reltol c c' ff = inr (d, ff') -> ff' = ff \/ ff' = (ff + 1)%Z.
Proof.
  unfold judge. destruct (c' =? c); [done|].
  destruct (is_finite (c / c') && (0 <? c / c')).
  - destruct (abs (1 - c / c') <? reltol); [done|]. intros [= _ <-]. by left.
  - intros [= _ <-]. by right.
Qed.

Lemma runs_flipflop (i : Z) (st st' : loop_state) :
  fits i st -> runs i st st' ->
  (0 <= flipflop st <= 11)%Z -> fits i st' /\ (0 <= flipflop st' <= 11)%Z.
Proof.
  intros Hfit Hruns. induction Hruns as [|st st1 st2 evs Hb Hruns IH]; [done|].
  intros Hff.
  destruct (body_cases i st Hfit)
    as [[Hg Hbody]|[(Hg & g' & Hj & Hbody)|(Hg & c & ff & Hj & Hbody)]];
    rewrite Hbody in Hb; try done.
  injection Hb as <- <-.
  apply IH; [by apply GradientFacts.fits_shrunk|]. simpl.
  unfold GradientEstimator.gives_up, flipflopmax in Hg.
  apply orb_false_iff in Hg as [_ Hg]. apply Z.ltb_ge in Hg.
  apply judge_flipflop in Hj as [->| ->]; lia.
Qed.

(** X6: in every state the loop of a requested index passes through, the
    sign-flip counter lies between 0 and 11, and a pass entered with a
    counter above 10 gives up: it evaluates nothing, logs the warning and
    ends the loop with a zero component. *)
Theorem flipflop_bounded (vals eps teps : list float) (i : Z) (st : loop_state) :
  in_range vals i -> length eps = length vals -> length teps = length vals ->
  reaches vals eps teps i st ->
  (0 <= flipflop st <= 11)%Z /\
  ((10 < flipflop st)%Z ->
   body i st = (Ok (inl 0), [LogWarning no_convergence])).
Proof.
  intros Hi He Ht (st0 & ev0 & Hs & Hruns).
  destruct (start_fits vals eps teps i st0 ev0 Hi He Ht Hs) as (Hfit & Hff & _).
  destruct (runs_flipflop i st0 st Hfit Hruns) as [Hfit' Hbound]; [lia|].
  split; [exact Hbound|]. intros Hover.
  apply GradientFacts.body_gives_up; [exact Hfit'|].
  unfold GradientEstimator.gives_up, flipflopmax.
  apply orb_true_iff. right. by apply Z.ltb_lt.
Qed.

End Loop.

(** *** An objective that is not a number *)

Lemma nan_div (x : float) : nan / x = nan.
Proof.
  apply Prim2SF_inj. rewrite div_spec.
  change (Prim2SF nan) with S754_nan. by destruct (Prim2SF x).
Qed.

Lemma judge_nan (reltol : float) (ff : Z) :
  judge reltol nan nan ff = inr (nan, (ff + 1)%Z).
Proof. reflexivity. Qed.

Lemma repeat_insert_same (x : float) (n k : nat) :
  <[k := x]> (repeat x n) = repeat x n.
Proof.
  revert k. induction n as [|n IH]; intros k; [done|].
  destruct k as [|k]; simpl; [done|]. by rewrite IH.
Qed.

Section NotANumber.

Variable func : list float -> float.
Variables mineps reltol epsscale : float.
Hypothesis func_nan : forall v, func v = nan.

Local Abbreviation while_loop := (while_loop func mineps reltol epsscale).
Local Abbreviation gives_up := (gives_up mineps epsscale).
Local Abbreviation for_loop := (for_loop func mineps reltol epsscale).
Local Abbreviation derivatives := (derivatives func mineps reltol epsscale).

Lemma shrunk_difference_nan (i : Z) (st : loop_state) :
  shrunk_difference func epsscale i st = nan.
Proof using func_nan.
  unfold shrunk_difference. rewrite !func_nan.
  change (nan - nan) with nan. apply nan_div.
Qed.

Lemma while_loop_nan (fuel : nat) (i : Z) (st : loop_state) :
  fits i st -> cdiff st = nan ->
  (0 <= flipflop st <= 11)%Z -> (12 - flipflop st <= Z.of_nat fuel)%Z ->
  exists evs, while_loop fuel i st = (Ok 0, evs) /\ warnings evs = 1%nat.
Proof using func_nan.
  revert st. induction fuel as [|fuel IH]; intros st Hfit Hc Hff Hfuel; [lia|].
  destruct (body_cases func mineps reltol epsscale i st Hfit)
    as [[Hg Hbody]|[(Hg & g' & Hj & Hbody)|(Hg & c & ff & Hj & Hbody)]];
    simpl; rewrite Hbody; simpl.
  - by eexists.
  - rewrite Hc, shrunk_difference_nan, judge_nan in Hj. done.
  - rewrite Hc, shrunk_difference_nan, judge_nan in Hj. injection Hj as <- <-.
    unfold GradientEstimator.gives_up, flipflopmax in Hg.
    apply orb_false_iff in Hg as [_ Hg]. apply Z.ltb_ge in Hg.
    destruct (IH (LoopState (leps st * epsscale) (cureps st * epsscale)
                    (flipflop st + 1) (shrunk_fvals epsscale i st)
                    (shrunk_bvals epsscale i st) nan))
      as (ev2 & Hw & Hwarn); simpl; try done; try lia.
    { by apply GradientFacts.fits_shrunk. }
    rewrite Hw. eexists. split; [reflexivity|]. done.
Qed.

Lemma for_loop_nan (fuel : nat) (vals eps teps : list float) (idx : list Z)
    (n count : nat) :
  Forall (in_range vals) idx ->
  length eps = length vals -> length teps = length vals ->
  (count + length idx <= n)%nat -> (12 <= fuel)%nat ->
  exists evs,
    for_loop fuel vals eps teps idx (repeat 0 n) count
    = (Ok (repeat 0 n), evs) /\
    warnings evs = length idx.
Proof using func_nan.
  intros Hidx He Ht. revert count.
  induction Hidx as [|i idx Hi Hidx IH]; intros count Hlen Hfuel.
  { by eexists. }
  simpl in Hlen.
  destruct (start_unfold func vals eps teps i Hi He Ht)
    as (l & c & _ & _ & Hst). cbv zeta in Hst.
  destruct (start_fits func vals eps teps i _ _ Hi He Ht Hst) as (Hfit & _).
  rewrite !func_nan in Hst, Hfit. change (nan - nan) with nan in Hst, Hfit.
  rewrite nan_div in Hst, Hfit.
  destruct (while_loop_nan fuel i _ Hfit eq_refl) as (ev1 & Hw & Hwarn);
    simpl; try lia.
  destruct (IH (S count)) as (ev2 & Hf & Hwarn2); [lia|done|].
  simpl. unfold GradientEstimator.component. rewrite Hst. simpl.
  rewrite Hw. simpl.
  rewrite GradientFacts.setitem_count by (rewrite repeat_length; lia). simpl.
  rewrite repeat_insert_same, Hf. eexists. split; [reflexivity|].
  simpl. rewrite warnings_app, Hwarn, Hwarn2. done.
Qed.

(** X8: for an objective that is NaN everywhere, every call that passes
    pre-validation returns, whatever the step sizes and tuning values: each
    loop gives up by its twelfth pass, the gradient is zero throughout and
    one warning is logged per requested index. *)
Theorem nan_objective_gives_flat_gradient (fuel : nat) (vals : list float)
    (releps : step_arg) (abseps : option step_arg)
    (nonfixedidx : option (list Z)) (idx : list Z) (eps teps : list float)
    (evs0 : list event) :
  prevalidation vals releps abseps nonfixedidx = (Ok (idx, eps, teps), evs0) ->
  (12 <= fuel)%nat ->
  exists evs,
    derivatives fuel vals releps abseps nonfixedidx
    = (Ok (repeat 0 (length idx)), evs) /\
    warnings evs = length idx.
Proof using func_nan.
  intros Hpre Hfuel.
  destruct (GradientFacts.prevalidation_steps _ _ _ _ _ _ _ _ Hpre)
    as (_ & _ & -> & Hidx & He & Ht).
  unfold GradientEstimator.derivatives. rewrite Hpre. simpl.
  destruct (for_loop_nan fuel vals eps teps idx (length idx) 0 Hidx He Ht)
    as (evs & Hf & Hwarn); [lia|done|].
  rewrite Hf. by exists evs.
Qed.

End NotANumber.

(** *** The order of the checks *)

Lemma max_reaches_high (l : list Z) (i0 bound : Z) :
  (exists x, x ∈ i0 :: l /\ (bound <= x)%Z) ->
  (bound <= fold_left Z.max l i0)%Z.
Proof.
  intros (x & Hx & Hb).
  pose proof (GradientFacts.fold_left_max_ge l i0 x Hx). lia.
Qed.

Lemma min_reaches_low (l : list Z) (i0 : Z) :
  (exists x, x ∈ i0 :: l /\ (x < 0)%Z) -> (fold_left Z.min l i0 < 0)%Z.
Proof.
  intros (x & Hx & Hb).
  pose proof (GradientFacts.fold_left_min_le l i0 x Hx). lia.
Qed.

(** X9: the checks are made in a fixed order, so the error of a call is
    that of the first check it fails: too many indices, then an empty index
    set, then an index out of range, then the length or the type of the
    step argument in force. *)
Theorem validation_order (func : list float -> float)
    (mineps reltol epsscale : float) (fuel : nat) (vals : list float)
    (releps : step_arg) (abseps : option step_arg)
    (nonfixedidx : option (list Z)) :
  let idx := index_set vals nonfixedidx in
  let call := derivatives func mineps reltol epsscale fuel vals releps abseps
                nonfixedidx in
  ((length vals < length idx)%nat ->
   call = (Raise (ValueError "To many non-fixed values"), []))
  /\
  ((length idx <= length vals)%nat -> idx = [] ->
   exists msg, call = (Raise (ValueError msg), []))
  /\
  ((length idx <= length vals)%nat ->
   (exists i, i ∈ idx /\ (i < 0 \/ Z.of_nat (length vals) <= i)%Z) ->
   call = (Raise (ValueError "Non-fixed indexes contain non-existent indices"), []))
  /\
  ((length idx <= length vals)%nat -> idx <> [] ->
   Forall (in_range vals) idx ->
   forall xs, active_step releps abseps = PyList xs ->
              length xs <> length vals ->
   call = (Raise (ValueError
             match abseps with
             | Some _ => "Problem with input absolute step sizes"
             | None => "Problem with input relative step sizes"
             end), []))
  /\
  ((length idx <= length vals)%nat -> idx <> [] ->
   Forall (in_range vals) idx ->
   active_step releps abseps = PyOther ->
   call = (Raise (RuntimeError
             match abseps with
             | Some _ => "Absolute step sizes are not a recognised type!"
             | None => "Relative step sizes are not a recognised type!"
             end), [])).
Proof.
  cbv zeta. unfold derivatives, prevalidation.
  fold (index_set vals nonfixedidx).
  set (idx := index_set vals nonfixedidx).
  assert (forall i0 l, Forall (in_range vals) (i0 :: l) ->
            (Z.of_nat (length vals) <=? fold_left Z.max l i0)%Z = false /\
            (fold_left Z.min l i0 <? 0)%Z = false) as Hpass.
  { intros i0 l Hall. rewrite Forall_forall in Hall. split.
    - apply Z.leb_gt.
      assert (exists x, x ∈ i0 :: l /\ x = fold_left Z.max l i0) as (x & Hx & <-).
      { clear Hall. revert i0. induction l as [|y l IH]; intros i0.
        - exists i0. split; [left|done].
        - simpl. destruct (IH (Z.max i0 y)) as (x & Hx & Heq).
          exists x. split; [|done].
          apply elem_of_cons in Hx as [->|Hx]; [|by do 2 right].
          destruct (Z.max_spec i0 y) as [[_ ->]|[_ ->]]; [right|]; left. }
      apply Hall in Hx. unfold in_range in Hx. lia.
    - apply Z.ltb_ge.
      assert (exists x, x ∈ i0 :: l /\ x = fold_left Z.min l i0) as (x & Hx & <-).
      { clear Hall. revert i0. induction l as [|y l IH]; intros i0.
        - exists i0. split; [left|done].
        - simpl. destruct (IH (Z.min i0 y)) as (x & Hx & Heq).
          exists x. split; [|done].
          apply elem_of_cons in Hx as [->|Hx]; [|by do 2 right].
          destruct (Z.min_spec i0 y) as [[_ ->]|[_ ->]]; [|right]; left. }
      apply Hall in Hx. unfold in_range in Hx. lia. }
  split; [|split; [|split; [|split]]].
  - intros Hlen. apply Nat.ltb_lt in Hlen. by rewrite Hlen.
  - intros Hlen Hnil. apply Nat.ltb_ge in Hlen. rewrite Hlen, Hnil.
    by eexists.
  - intros Hlen (i & Hi & Hout). apply Nat.ltb_ge in Hlen. rewrite Hlen.
    destruct idx as [|i0 l]; [by apply elem_of_nil in Hi|]. simpl.
    destruct (Z.of_nat (length vals) <=? fold_left Z.max l i0)%Z eqn:Emax;
      [done|]. simpl.
    apply Z.leb_gt in Emax.
    destruct Hout as [Hneg|Hbig].
    + assert (fold_left Z.min l i0 < 0)%Z as Hmin
        by (apply min_reaches_low; eauto).
      apply Z.ltb_lt in Hmin. by rewrite Hmin.
    + assert (Z.of_nat (length vals) <= fold_left Z.max l i0)%Z
        by (apply max_reaches_high; eauto). lia.
  - intros Hlen Hne Hall xs Hxs Hbad. apply Nat.ltb_ge in Hlen. rewrite Hlen.
    destruct idx as [|i0 l]; [done|]. simpl.
    destruct (Hpass i0 l Hall) as [-> ->]. simpl.
    apply Nat.eqb_neq in Hbad.
    destruct abseps as [a|]; simpl in Hxs; subst; simpl; by rewrite Hbad.
  - intros Hlen Hne Hall Hother. apply Nat.ltb_ge in Hlen. rewrite Hlen.
    destruct idx as [|i0 l]; [done|]. simpl.
    destruct (Hpass i0 l Hall) as [-> ->]. simpl.
    destruct abseps as [a|]; simpl in Hother; subst; done.
Qed.

(** *** Concrete runs *)

Import Examples Samples.

Lemma gradient_in_requested_order_witness :
  exists grads evs,
    derivatives sum_cubes 1e-9 0.001 0.5 30 [2; 3] (PyFloat 0.001) None
      (Some [1; 0]%Z) = (Ok grads, evs) /\
    length grads = 2%nat /\
    exists g ev,
      component sum_cubes 1e-9 0.001 0.5 30 [2; 3]
        [abs 2 * 0.001; abs 3 * 0.001] [0.001 * 1; 0.001 * 1] 1
      = (Ok g, ev) /\ grads !! 0%nat = Some g.
Proof.
  destruct (derivatives sum_cubes 1e-9 0.001 0.5 30 [2; 3] (PyFloat 0.001) None
              (Some [1; 0]%Z)) as [[grads| |] evs] eqn:Hd;
    [|vm_compute in Hd; discriminate|vm_compute in Hd; discriminate].
  exists grads, evs. split; [reflexivity|].
  destruct (gradient_in_requested_order sum_cubes 1e-9 0.001 0.5 30 [2; 3]
              (PyFloat 0.001) None (Some [1; 0]%Z) [1; 0]%Z
              [abs 2 * 0.001; abs 3 * 0.001] [0.001 * 1; 0.001 * 1] []
              grads evs) as (Hlen & Hentry & _).
  - vm_compute. reflexivity.
  - exact Hd.
  - split; [exact Hlen|]. apply (Hentry 0%nat 1%Z). reflexivity.
Defined.

Lemma evaluated_off_one_axis_witness :
  exists i, i ∈ index_set [2; 3] (Some [1; 0]%Z) /\
            off_axis [2; 3] i [2; 3 + 0.5 * (abs 3 * 0.001)].
Proof.
  destruct (derivatives sum_cubes 1e-9 0.001 0.5 30 [2; 3] (PyFloat 0.001) None
              (Some [1; 0]%Z)) as [r evs] eqn:Hd.
  apply (evaluated_off_one_axis sum_cubes 1e-9 0.001 0.5 30 [2; 3]
           (PyFloat 0.001) None (Some [1; 0]%Z) r evs).
  - exact Hd.
  - vm_compute in Hd. injection Hd as _ <-. left.
Defined.


Lemma entry_flat_or_accepted_witness :
  exists grads evs g st,
    derivatives cube 1e-9 0.001 0.5 30 [0; 1] (PyFloat 0.001) None
      (Some [1; 0]%Z) = (Ok grads, evs) /\
    grads !! 1%nat = Some g /\
    reaches cube 1e-9 0.001 0.5 [0; 1] [0.001; abs 1 * 0.001]
      [0.001 * 1; 0.001 * 1] 0 st /\
    ((gives_up 1e-9 0.5 st = true /\ g = 0)
     \/
     (gives_up 1e-9 0.5 st = false /\
      judge 0.001 (cdiff st) (shrunk_difference cube 0.5 0 st) (flipflop st)
      = inl g)).
Proof.
  destruct (derivatives cube 1e-9 0.001 0.5 30 [0; 1] (PyFloat 0.001) None
              (Some [1; 0]%Z)) as [[grads| |] evs] eqn:Hd;
    [|vm_compute in Hd; discriminate|vm_compute in Hd; discriminate].
  destruct (entry_flat_or_accepted cube 1e-9 0.001 0.5 30 [0; 1]
              (PyFloat 0.001) None (Some [1; 0]%Z) [1; 0]%Z
              [0.001; abs 1 * 0.001] [0.001 * 1; 0.001 * 1] [] grads evs
              1%nat 0%Z) as (g & st & Hg & Hreach & Hend).
  - vm_compute. reflexivity.
  - exact Hd.
  - reflexivity.
  - exists grads, evs, g, st. split; [reflexivity|]. split; [exact Hg|].
    split; [exact Hreach|exact Hend].
Defined.


Lemma flipflop_bounded_witness :
  flipflop flipped_state = 11%Z /\
  (0 <= flipflop flipped_state <= 11)%Z /\
  body always_nan 1e-9 0.001 0.5 0 flipped_state
  = (Ok (inl 0), [LogWarning no_convergence]).
Proof.
  split; [reflexivity|].
  destruct (flipflop_bounded always_nan 1e-9 0.001 0.5 [2] [abs 2 * 0.001]
              [0.001 * 1] 0 flipped_state) as [Hbound Hstop].
  - unfold in_range. simpl. lia.
  - reflexivity.
  - reflexivity.
  - eexists _, _. split; [vm_compute; reflexivity|].
    do 11 (eapply runs_on; [vm_compute; reflexivity|]).
    apply runs_here.
  - split; [exact Hbound|]. apply Hstop. vm_compute. reflexivity.
Defined.

Lemma nan_objective_gives_flat_gradient_witness :
  exists evs,
    derivatives always_nan 1e-9 0.001 0.5 12 [2; 3] (PyFloat 0.001) None None
    = (Ok (repeat 0 2), evs) /\
    warnings evs = 2%nat.
Proof.
  apply (nan_objective_gives_flat_gradient always_nan 1e-9 0.001 0.5
           (fun _ => eq_refl) 12 [2; 3] (PyFloat 0.001) None None [0; 1]%Z
           [abs 2 * 0.001; abs 3 * 0.001] [0.001 * 1; 0.001 * 1] []).
  - vm_compute. reflexivity.
  - lia.
Defined.

Lemma validation_order_witness :
  derivatives cube 1e-9 0.001 0.5 30 [2] (PyList [0.001; 0.001]) None
    (Some [0; 5]%Z)
  = (Raise (ValueError "To many non-fixed values"), [])
  /\
  (exists msg,
     derivatives cube 1e-9 0.001 0.5 30 [] PyOther None None
     = (Raise (ValueError msg), []))
  /\
  derivatives cube 1e-9 0.001 0.5 30 [2; 3] (PyList [0.001]) None
    (Some [0; 2]%Z)
  = (Raise (ValueError "Non-fixed indexes contain non-existent indices"), [])
  /\
  derivatives cube 1e-9 0.001 0.5 30 [2; 3] PyOther (Some (PyList [0.001]))
    (Some [1]%Z)
  = (Raise (ValueError "Problem with input absolute step sizes"), [])
  /\
  derivatives cube 1e-9 0.001 0.5 30 [2; 3] PyOther None (Some [1]%Z)
  = (Raise (RuntimeError "Relative step sizes are not a recognised type!"), []).
Proof.
  split; [|split; [|split; [|split]]].
  - destruct (validation_order cube 1e-9 0.001 0.5 30 [2]
                (PyList [0.001; 0.001]) None (Some [0; 5]%Z)) as (H & _).
    apply H. simpl. lia.
  - destruct (validation_order cube 1e-9 0.001 0.5 30 [] PyOther None None)
      as (_ & H & _).
    apply H; [simpl; lia|reflexivity].
  - destruct (validation_order cube 1e-9 0.001 0.5 30 [2; 3] (PyList [0.001])
                None (Some [0; 2]%Z)) as (_ & _ & H & _).
    apply H; [simpl; lia|].
    exists 2%Z. split; [right; left|simpl; lia].
  - destruct (validation_order cube 1e-9 0.001 0.5 30 [2; 3] PyOther
                (Some (PyList [0.001])) (Some [1]%Z)) as (_ & _ & _ & H & _).
    apply (H ltac:(simpl; lia) ltac:(discriminate)
             ltac:(repeat constructor; simpl; lia) [0.001] eq_refl).
    simpl. lia.
  - destruct (validation_order cube 1e-9 0.001 0.5 30 [2; 3] PyOther None
                (Some [1]%Z)) as (_ & _ & _ & _ & H).
    apply H; [simpl; lia|discriminate| |reflexivity].
    repeat constructor; simpl; lia.
Defined.

Lemma immediate_give_up_witness :
  component cube 1e-9 0.001 0.5 1 [2] [abs 2 * 1e-9] [1e-9 * 1] 0
  = (Ok 0, [EvalFunc (perturb (fun v => v + 0.5 * (abs 2 * 1e-9)) 0 [2]);
            EvalFunc (perturb (fun v => v - 0.5 * (abs 2 * 1e-9)) 0 [2]);
            LogWarning no_convergence]).
Proof.
  apply (immediate_give_up cube 1e-9 0.001 0.5 0 [2] [abs 2 * 1e-9]
           [1e-9 * 1] 0 (abs 2 * 1e-9) (1e-9 * 1)).
  - unfold in_range. simpl. lia.
  - reflexivity.
  - reflexivity.
  - reflexivity.
  - reflexivity.
  - vm_compute. reflexivity.
Defined.

Lemma entry_independent_of_other_indices_witness :
  exists grads1 grads2 evs1 evs2,
    derivatives sum_cubes 1e-9 0.001 0.5 30 [2; 3] (PyFloat 0.001) None
      (Some [1; 0]%Z) = (Ok grads1, evs1) /\
    derivatives sum_cubes 1e-9 0.001 0.5 30 [2; 3] (PyFloat 0.001) None
      (Some [0]%Z) = (Ok grads2, evs2) /\
    exists g : float, grads1 !! 1%nat = Some g /\ grads2 !! 0%nat = Some g.
Proof.
  destruct (derivatives sum_cubes 1e-9 0.001 0.5 30 [2; 3] (PyFloat 0.001) None
              (Some [1; 0]%Z)) as [[grads1| |] evs1] eqn:Hd1;
    [|vm_compute in Hd1; discriminate|vm_compute in Hd1; discriminate].
  destruct (derivatives sum_cubes 1e-9 0.001 0.5 30 [2; 3] (PyFloat 0.001) None
              (Some [0]%Z)) as [[grads2| |] evs2] eqn:Hd2;
    [|vm_compute in Hd2; discriminate|vm_compute in Hd2; discriminate].
  exists grads1, grads2, evs1, evs2. split; [reflexivity|]. split; [reflexivity|].
  apply (entry_independent_of_other_indices sum_cubes 1e-9 0.001 0.5 30 [2; 3]
           (PyFloat 0.001) None (Some [1; 0]%Z) (Some [0]%Z) [1; 0]%Z [0]%Z
           [abs 2 * 0.001; abs 3 * 0.001] [0.001 * 1; 0.001 * 1]
           [abs 2 * 0.001; abs 3 * 0.001] [0.001 * 1; 0.001 * 1]
           [] [] grads1 grads2 evs1 evs2 1 0 0%Z).
  - vm_compute. reflexivity.
  - vm_compute. reflexivity.
  - exact Hd1.
  - exact Hd2.
  - reflexivity.
  - reflexivity.
Defined.

End GradientProperties.

(** ** Further properties of the log-domain integrator *)

Module IntegratorProperties.

Import LogDomainIntegrator Measures.
Local Open Scope R_scope.

(** *** Sums of exponentials *)

Lemma sum_exp_pos (a : list R) : a <> [] -> 0 < sum (map exp a).
Proof.
  destruct a as [|x a]; [done|]. intros _. simpl.
  assert (0 <= sum (map exp a)) as H.
  { induction a as [|y a IH]; simpl; [lra|]. pose proof (exp_pos y). lra. }
  pose proof (exp_pos x). lra.
Qed.

Lemma sum_exp_shift (a : list R) (m : R) :
  sum (map (fun x => exp (x - m)) a) = exp (- m) * sum (map exp a).
Proof.
  induction a as [|x a IH]; simpl; [lra|].
  rewrite IH. unfold Rminus. rewrite exp_plus. lra.
Qed.

(** The max-shifted evaluation is the logarithm of the sum of the
    exponentials. *)
Lemma logsumexp_value_ln (a : list R) :
  a <> [] -> logsumexp_value a = ln (sum (map exp a)).
Proof.
  intros Ha. unfold logsumexp_value. rewrite sum_exp_shift.
  rewrite ln_mult; [|apply exp_pos|by apply sum_exp_pos].
  rewrite ln_exp. lra.
Qed.

Lemma logsumexp_two (u v : R) : logsumexp_value [u; v] = ln (exp u + exp v).
Proof. rewrite logsumexp_value_ln by done. simpl. f_equal. lra. Qed.

(** The weighted sum of exponentials, [sum dx[k] * exp a[k]]. *)
Lemma sum_exp_weighted (a dx : list R) :
  Forall (fun d => 0 < d) dx ->
  sum (map exp (zip_with Rplus a (map ln dx)))
  = sum (zip_with (fun x d => d * exp x) a dx).
Proof.
  intros Hdx. revert a. induction Hdx as [|d dx Hd Hdx IH]; intros [|x a];
    simpl; try done.
  rewrite IH, exp_plus, exp_ln by done. lra.
Qed.

Lemma sum_weighted_uniform (a : list R) (d : R) (n : nat) :
  (length a <= n)%nat ->
  sum (zip_with (fun x d => d * exp x) a (replicate n d))
  = d * sum (map exp a).
Proof.
  revert n. induction a as [|x a IH]; intros n Hn; simpl.
  - destruct n; simpl; lra.
  - destruct n as [|n]; simpl in *; [lia|]. rewrite IH by lia. lra.
Qed.

Lemma sum_weighted_pos (a dx : list R) :
  a <> [] -> dx <> [] -> Forall (fun d => 0 < d) dx ->
  0 < sum (zip_with (fun x d => d * exp x) a dx).
Proof.
  intros Ha Hdx Hpos. destruct a as [|x a]; [done|].
  destruct dx as [|d dx]; [done|]. simpl.
  apply Forall_cons in Hpos as [Hd Hpos].
  assert (0 <= sum (zip_with (fun x d => d * exp x) a dx)) as H.
  { clear -Hpos. revert a. induction Hpos as [|d dx Hd Hdx IH]; intros [|x a];
      simpl; try lra.
    specialize (IH a). pose proof (exp_pos x). nra. }
  pose proof (exp_pos x). nra.
Qed.

(** *** The trapezium rule *)

Lemma all_but_last_cons (x y : R) (l : list R) :
  all_but_last (x :: y :: l) = x :: all_but_last (y :: l).
Proof. unfold all_but_last. simpl. by rewrite Nat.sub_0_r. Qed.

Lemma trapezium_halves (lnf dx : list R) :
  trapezium (map exp lnf) dx
  = (sum (zip_with (fun x d => d * exp x) (all_but_last lnf) dx)
     + sum (zip_with (fun x d => d * exp x) (all_but_first lnf) dx)) / 2.
Proof.
  revert dx. induction lnf as [|f0 l IH]; intros dx.
  - simpl. unfold all_but_last, all_but_first. simpl. lra.
  - destruct l as [|f1 r].
    + unfold all_but_last, all_but_first. simpl. destruct dx; simpl; lra.
    + destruct dx as [|d dx].
      * rewrite all_but_last_cons. unfold all_but_first. simpl. lra.
      * rewrite all_but_last_cons. specialize (IH dx).
        change (all_but_first (f0 :: f1 :: r)) with (f1 :: r).
        change (all_but_first (f1 :: r)) with r in IH.
        change (trapezium (map exp (f0 :: f1 :: r)) (d :: dx))
          with (d * (exp f0 + exp f1) / 2 + trapezium (map exp (f1 :: r)) dx).
        rewrite IH. simpl. lra.
Qed.

Lemma slices_nonempty (lnf : list R) :
  (2 <= length lnf)%nat ->
  all_but_last lnf <> [] /\ all_but_first lnf <> [] /\
  length (all_but_last lnf) = (length lnf - 1)%nat /\
  length (all_but_first lnf) = (length lnf - 1)%nat.
Proof.
  intros Hn. split; [|split; [|split]].
  - destruct lnf as [|x [|y l]]; simpl in Hn; try lia.
    by rewrite all_but_last_cons.
  - destruct lnf as [|x [|y l]]; simpl in Hn; try lia. done.
  - unfold all_but_last. rewrite length_take. lia.
  - unfold all_but_first. rewrite length_drop. lia.
Qed.

(** X10: for positive spacings, one per pair of adjacent samples, the
    result is the logarithm of the trapezium-rule integral of the
    exponentiated samples. *)
Theorem logtrapzexp_is_log_of_trapezium (lnf dx : list R) :
  (2 <= length lnf)%nat -> length dx = (length lnf - 1)%nat ->
  Forall (fun d => 0 < d) dx ->
  exists v,
    fst (logtrapzexp lnf (StepSeq dx)) = Ok v /\
    0 < trapezium (map exp lnf) dx /\
    v = ln (trapezium (map exp lnf) dx).
Proof.
  intros Hn Hlen Hpos.
  destruct (slices_nonempty lnf Hn) as (Ha & Hb & Hla & Hlb).
  assert (dx <> []) as Hdx by (destruct dx; simpl in Hlen; [lia|done]).
  rewrite IntegratorFacts.logtrapzexp_seq by lia. cbv zeta. simpl.
  eexists. split; [reflexivity|].
  rewrite trapezium_halves.
  pose proof (sum_weighted_pos _ _ Ha Hdx Hpos) as H1.
  pose proof (sum_weighted_pos _ _ Hb Hdx Hpos) as H2.
  split; [lra|].
  rewrite logsumexp_two.
  rewrite !logsumexp_value_ln.
  - rewrite !sum_exp_weighted by done.
    rewrite !exp_ln by done.
    unfold Rdiv. rewrite ln_mult by lra. rewrite ln_Rinv by lra. lra.
  - destruct (all_but_first lnf), dx; simpl in *; done.
  - destruct (all_but_last lnf), dx; simpl in *; done.
Qed.

(** X11: for a positive uniform spacing the result is the logarithm of the
    trapezium-rule integral with that spacing between all samples. *)
Theorem logtrapzexp_uniform_is_log_of_trapezium (lnf : list R) (d : R) :
  (2 <= length lnf)%nat -> 0 < d ->
  exists v,
    fst (logtrapzexp lnf (StepScalar d)) = Ok v /\
    0 < trapezium (map exp lnf) (replicate (length lnf - 1) d) /\
    v = ln (trapezium (map exp lnf) (replicate (length lnf - 1) d)).
Proof.
  intros Hn Hd.
  destruct (slices_nonempty lnf Hn) as (Ha & Hb & Hla & Hlb).
  rewrite IntegratorFacts.logtrapzexp_scalar. simpl.
  eexists. split; [reflexivity|].
  rewrite trapezium_halves, !sum_weighted_uniform by lia.
  pose proof (sum_exp_pos _ Ha) as H1. pose proof (sum_exp_pos _ Hb) as H2.
  split; [nra|].
  rewrite logsumexp_two, !logsumexp_value_ln by done.
  rewrite !exp_ln by done.
  replace ((d * sum (map exp (all_but_last lnf))
            + d * sum (map exp (all_but_first lnf))) / 2)
    with ((d / 2) * (sum (map exp (all_but_last lnf))
                     + sum (map exp (all_but_first lnf)))) by lra.
  rewrite ln_mult by lra. lra.
Qed.

(** X12: a uniform spacing given as a number and the same spacing given
    once per pair of adjacent samples integrate to the same value. *)
Theorem uniform_step_forms_agree (lnf : list R) (d : R) :
  (2 <= length lnf)%nat -> 0 < d ->
  fst (logtrapzexp lnf (StepSeq (replicate (length lnf - 1) d)))
  = fst (logtrapzexp lnf (StepScalar d)).
Proof.
  intros Hn Hd.
  destruct (slices_nonempty lnf Hn) as (Ha & Hb & Hla & Hlb).
  assert (Forall (fun d => 0 < d) (replicate (length lnf - 1) d)) as Hpos
    by (by apply Forall_replicate).
  rewrite IntegratorFacts.logtrapzexp_seq
    by (rewrite length_replicate; lia).
  rewrite IntegratorFacts.logtrapzexp_scalar. cbv zeta. simpl. f_equal.
  pose proof (sum_exp_pos _ Ha) as H1. pose proof (sum_exp_pos _ Hb) as H2.
  rewrite !logsumexp_two.
  rewrite !logsumexp_value_ln; try done.
  - rewrite !sum_exp_weighted, !sum_weighted_uniform by (done || lia).
    rewrite !exp_ln by (done || nra).
    replace (d * sum (map exp (all_but_last lnf))
             + d * sum (map exp (all_but_first lnf)))
      with (d * (sum (map exp (all_but_last lnf))
                 + sum (map exp (all_but_first lnf)))) by lra.
    rewrite ln_mult by lra.
    unfold Rdiv. rewrite ln_mult by lra. rewrite ln_Rinv by lra. lra.
  - destruct (all_but_first lnf), (length lnf - 1)%nat; simpl in *; done.
  - destruct (all_but_last lnf), (length lnf - 1)%nat; simpl in *; done.
Qed.

(** *** Rescaling the integrand *)

Lemma logsumexp_value_shift (a : list R) (c : R) :
  a <> [] ->
  logsumexp_value (map (fun x => x + c) a) = logsumexp_value a + c.
Proof.
  intros Ha. rewrite !logsumexp_value_ln; [|done|by destruct a].
  assert (sum (map exp (map (fun x => x + c) a)) = exp c * sum (map exp a)) as ->.
  { clear Ha. induction a as [|x a IH]; simpl; [lra|].
    rewrite IH, exp_plus. lra. }
  rewrite ln_mult; [|apply exp_pos|by apply sum_exp_pos].
  rewrite ln_exp. lra.
Qed.

Lemma all_but_last_map (f : R -> R) (l : list R) :
  all_but_last (map f l) = map f (all_but_last l).
Proof. unfold all_but_last. by rewrite length_map, <- fmap_take. Qed.

Lemma all_but_first_map (f : R -> R) (l : list R) :
  all_but_first (map f l) = map f (all_but_first l).
Proof. unfold all_but_first. by rewrite <- fmap_drop. Qed.

Lemma zip_with_shift (a w : list R) (c : R) :
  zip_with Rplus (map (fun x => x + c) a) w
  = map (fun x => x + c) (zip_with Rplus a w).
Proof.
  revert w. induction a as [|x a IH]; intros [|y w]; simpl; try done.
  rewrite IH. f_equal. lra.
Qed.

(** X13: adding a constant to every log-sample, that is multiplying the
    integrand by a constant factor, adds that constant to the result, for
    a positive uniform spacing and for positive spacings per pair. *)
Theorem logtrapzexp_shift (lnf : list R) (c : R) :
  (2 <= length lnf)%nat ->
  (forall d v,
      0 < d ->
      fst (logtrapzexp lnf (StepScalar d)) = Ok v ->
      fst (logtrapzexp (map (fun x => x + c) lnf) (StepScalar d)) = Ok (v + c))
  /\
  (forall dx v,
      Forall (fun d => 0 < d) dx ->
      fst (logtrapzexp lnf (StepSeq dx)) = Ok v ->
      fst (logtrapzexp (map (fun x => x + c) lnf) (StepSeq dx)) = Ok (v + c)).
Proof.
  intros Hn.
  destruct (slices_nonempty lnf Hn) as (Ha & Hb & Hla & Hlb).
  assert (forall u v, logsumexp_value [u + c; v + c] = logsumexp_value [u; v] + c)
    as Hpair.
  { intros u v. by rewrite <- (logsumexp_value_shift [u; v] c). }
  split.
  - intros d v _. rewrite !IntegratorFacts.logtrapzexp_scalar. simpl.
    intros [= <-]. f_equal.
    rewrite all_but_last_map, all_but_first_map.
    rewrite !logsumexp_value_shift, Hpair by done. lra.
  - intros dx v _. unfold logtrapzexp. rewrite length_map.
    destruct (negb (Z.of_nat (length dx) =? Z.of_nat (length lnf) - 1)%Z) eqn:E;
      [done|].
    apply negb_false_iff, Z.eqb_eq in E. simpl.
    intros [= <-]. f_equal.
    rewrite all_but_last_map, all_but_first_map, !zip_with_shift.
    assert (dx <> []) as Hdx by (destruct dx; simpl in E; [lia|done]).
    rewrite !logsumexp_value_shift, Hpair; [lra| |].
    + destruct (all_but_first lnf), dx; simpl in *; done.
    + destruct (all_but_last lnf), dx; simpl in *; done.
Qed.

(** *** Reversing the grid *)

Lemma sum_app (a b : list R) : sum (a ++ b) = sum a + sum b.
Proof. induction a as [|x a IH]; simpl; [lra|]. rewrite IH. lra. Qed.

Lemma sum_reverse (a : list R) : sum (reverse a) = sum a.
Proof.
  induction a as [|x a IH]; [done|].
  rewrite reverse_cons, sum_app, IH. simpl. lra.
Qed.

Lemma zip_with_reverse (f : R -> R -> R) (a b : list R) :
  length a = length b ->
  zip_with f (reverse a) (reverse b) = reverse (zip_with f a b).
Proof.
  revert b. induction a as [|x a IH]; intros [|y b] Hlen; simpl in *; try done.
  rewrite !reverse_cons, zip_with_app by (rewrite !length_reverse; lia).
  rewrite IH by lia. done.
Qed.

Lemma all_but_last_reverse (l : list R) :
  all_but_last (reverse l) = reverse (all_but_first l).
Proof.
  unfold all_but_last, all_but_first. rewrite length_reverse.
  destruct l as [|x l]; [done|]. simpl. rewrite Nat.sub_0_r, drop_0.
  rewrite reverse_cons, take_app_length'; [done|by rewrite length_reverse].
Qed.

Lemma all_but_first_reverse (l : list R) :
  all_but_first (reverse l) = reverse (all_but_last l).
Proof.
  rewrite <- (reverse_involutive (all_but_first (reverse l))).
  by rewrite <- all_but_last_reverse, reverse_involutive.
Qed.

(** X23: the integral does not depend on the direction in which the grid
    is traversed: reversing the samples together with the spacings leaves
    the result unchanged. *)
Theorem logtrapzexp_reversed (lnf dx : list R) :
  (2 <= length lnf)%nat -> length dx = (length lnf - 1)%nat ->
  Forall (fun d => 0 < d) dx ->
  fst (logtrapzexp (reverse lnf) (StepSeq (reverse dx)))
  = fst (logtrapzexp lnf (StepSeq dx)).
Proof.
  intros Hn Hlen Hpos.
  destruct (slices_nonempty lnf Hn) as (Ha & Hb & Hla & Hlb).
  assert (Forall (fun d => 0 < d) (reverse dx)) as Hpos'
    by (by apply Forall_reverse).
  assert (dx <> []) as Hdx by (destruct dx; simpl in Hlen; [lia|done]).
  rewrite !IntegratorFacts.logtrapzexp_seq
    by (rewrite ?length_reverse; lia).
  cbv zeta. simpl. do 2 f_equal.
  rewrite !logsumexp_two. f_equal.
  rewrite all_but_last_reverse, all_but_first_reverse.
  rewrite !logsumexp_value_ln.
  - rewrite !sum_exp_weighted by done.
    rewrite !zip_with_reverse by lia. rewrite !sum_reverse.
    rewrite !exp_ln by (by apply sum_weighted_pos). lra.
  - destruct (all_but_first lnf), dx; simpl in *; done.
  - destruct (all_but_last lnf), dx; simpl in *; done.
  - intros H. apply (f_equal length) in H.
    rewrite length_zip_with, length_reverse, length_map, length_reverse in H.
    simpl in H. destruct dx; simpl in *; [done|lia].
  - intros H. apply (f_equal length) in H.
    rewrite length_zip_with, length_reverse, length_map, length_reverse in H.
    simpl in H. destruct dx; simpl in *; [done|lia].
Qed.

(** *** Concrete grids *)

Lemma logtrapzexp_reversed_witness :
  fst (logtrapzexp (reverse [0; 1; 2]) (StepSeq (reverse [1; 3])))
  = fst (logtrapzexp [0; 1; 2] (StepSeq [1; 3])).
Proof.
  apply logtrapzexp_reversed.
  - simpl. lia.
  - reflexivity.
  - repeat constructor; lra.
Defined.

Lemma logtrapzexp_is_log_of_trapezium_witness :
  exists v,
    fst (logtrapzexp [0; 0; 0] (StepSeq [1; 3])) = Ok v /\
    0 < trapezium (map exp [0; 0; 0]) [1; 3] /\
    v = ln (trapezium (map exp [0; 0; 0]) [1; 3]).
Proof.
  apply logtrapzexp_is_log_of_trapezium.
  - simpl. lia.
  - reflexivity.
  - repeat constructor; lra.
Defined.

Lemma logtrapzexp_uniform_is_log_of_trapezium_witness :
  exists v,
    fst (logtrapzexp [0; 0; 0] (StepScalar 1)) = Ok v /\
    0 < trapezium (map exp [0; 0; 0]) (replicate (length [0; 0; 0] - 1) 1) /\
    v = ln (trapezium (map exp [0; 0; 0]) (replicate (length [0; 0; 0] - 1) 1)).
Proof.
  apply logtrapzexp_uniform_is_log_of_trapezium.
  - simpl. lia.
  - lra.
Defined.

Lemma uniform_step_forms_agree_witness :
  fst (logtrapzexp [0; 1; 0] (StepSeq (replicate (length [0; 1; 0] - 1) 2)))
  = fst (logtrapzexp [0; 1; 0] (StepScalar 2)).
Proof.
  apply uniform_step_forms_agree.
  - simpl. lia.
  - lra.
Defined.

Lemma logtrapzexp_shift_witness :
  exists v,
    fst (logtrapzexp [0; 1; 0] (StepScalar 2)) = Ok v /\
    fst (logtrapzexp (map (fun x => x + 5) [0; 1; 0]) (StepScalar 2))
    = Ok (v + 5).
Proof.
  assert (2 <= length [0; 1; 0])%nat as Hn by (simpl; lia).
  destruct (logtrapzexp_shift [0; 1; 0] 5 Hn) as [Hscalar _].
  eexists. split.
  - rewrite IntegratorFacts.logtrapzexp_scalar. reflexivity.
  - apply Hscalar; [lra|].
    rewrite IntegratorFacts.logtrapzexp_scalar. reflexivity.
Defined.

End IntegratorProperties.

(** ** Further properties of the surface evaluator *)

Module SurfaceProperties.

Import SurfaceEvaluator.
Local Open Scope float_scope.

(** *** Reconciliation *)

Lemma collapse_cases (x : pyval) :
  well_formed_arg x ->
  (exists u, collapse x = Num u) \/
  (exists a, collapse x = Arr a /\ x = Arr a /\ size a <> 1%nat /\ well_formed a).
Proof.
  intros Hx. destruct (collapse x) as [u|a] eqn:E; [left; by exists u|].
  right. exists a. apply SurfaceFacts.collapse_array in E as [-> Hs]. done.
Qed.

Lemma scalar_mul_ones_well_formed (v : float) (a : ndarray) :
  well_formed a -> well_formed (scalar_mul v (ones_like a)).
Proof.
  unfold well_formed, scalar_mul, ones_like, size. simpl.
  by rewrite !length_map.
Qed.

(** What reconciliation can return: an error without any event, two
    numbers, or two well-formed arrays of one shape. *)
Lemma sanitize_outcome (x y : pyval) :
  well_formed_arg x -> well_formed_arg y ->
  (exists e, _sanitize_inputs x y = (Raise e, []) /\ reconciled_shape x y = None)
  \/
  (exists u v, _sanitize_inputs x y = (Ok (Num u, Num v), []) /\
               collapse x = Num u /\ collapse y = Num v)
  \/
  (exists a b, _sanitize_inputs x y = (Ok (Arr a, Arr b), []) /\
               reconciled_shape x y = Some (shape a) /\
               shape a = shape b /\ well_formed a /\ well_formed b).
Proof.
  intros Hx Hy. unfold reconciled_shape.
  destruct (collapse_cases x Hx) as [[u Eu]|(a & Ea & -> & Hsa & Hwa)];
    destruct (collapse_cases y Hy) as [[v Ev]|(b & Eb & -> & Hsb & Hwb)].
  - right; left. exists u, v. unfold _sanitize_inputs. by rewrite Eu, Ev.
  - right; right. exists (scalar_mul u (ones_like b)), b.
    unfold _sanitize_inputs. rewrite Eu, Eb.
    repeat split; try done. by apply scalar_mul_ones_well_formed.
  - right; right. exists a, (scalar_mul v (ones_like a)).
    unfold _sanitize_inputs. rewrite Ea, Ev.
    repeat split; try done. by apply scalar_mul_ones_well_formed.
  - rewrite Ea, Eb.
    pose proof (SurfaceFacts.sanitize_arrays a b Hsa Hsb) as Hs.
    pose proof (SurfaceFacts.sanitize_arrays_well_formed a b) as Hwf.
    cbv zeta in Hs, Hwf. simpl in Hs, Hwf.
    destruct (broadcast_shapes _ _) as [r|] eqn:Er.
    + destruct (Hwf r Hwa Hwb eq_refl) as [Hwa' Hwb'].
      right; right. eexists _, _. split; [exact Hs|]. done.
    + left. eexists. split; [exact Hs|done].
Qed.

Lemma well_formed_lengths (a b : ndarray) :
  shape a = shape b -> well_formed a -> well_formed b ->
  length (data a) = length (data b).
Proof. unfold well_formed, size. congruence. Qed.

Section Call.

Variable spline : float -> float -> float.
Variable ier_of : list float -> list float -> Z.
Variable uninitialised : float.
Variable self : interp2d.

Local Abbreviation call := (__call__ spline ier_of uninitialised self).
Local Abbreviation oob := (out_of_bounds self).
Local Abbreviation pv := (point_value spline self).
Local Abbreviation mask := (in_bounds_mask self).
Local Abbreviation status := (final_status ier_of self).
Local Abbreviation calls := (spline_calls self).

(** The call on a reconciled query, whatever its kind. *)
Lemma call_reconciled (x y : pyval) :
  well_formed_arg x -> well_formed_arg y ->
  (exists e, _sanitize_inputs x y = (Raise e, []) /\ call x y = (Raise e, []))
  \/
  (exists xs ys out,
      length xs = length ys /\
      call x y = (checked (status xs ys) out, calls xs ys) /\
      well_formed_arg out /\
      match out with
      | Num w => exists u v, xs = [u] /\ ys = [v] /\ w = pv u v /\
                             _sanitize_inputs x y = (Ok (Num u, Num v), [])
      | Arr o => exists a b, xs = data a /\ ys = data b /\
                             o = NDArray (shape a) (zip_with pv xs ys) /\
                             _sanitize_inputs x y = (Ok (Arr a, Arr b), []) /\
                             reconciled_shape x y = Some (shape a)
      end).
Proof.
  intros Hx Hy.
  destruct (sanitize_outcome x y Hx Hy)
    as [(e & Hs & _)|[(u & v & Hs & _)|(a & b & Hs & Hr & Hsh & Hwa & Hwb)]].
  - left. exists e. split; [done|]. by apply SurfaceFacts.call_raises.
  - right. exists [u], [v], (Num (pv u v)). split; [done|].
    split; [by apply SurfaceFacts.call_on_numbers|]. split; [exact I|].
    by exists u, v.
  - right. pose proof (well_formed_lengths a b Hsh Hwa Hwb) as Hlen.
    exists (data a), (data b), (Arr (NDArray (shape a) (zip_with pv (data a) (data b)))).
    split; [done|]. split; [by apply SurfaceFacts.call_on_arrays|]. split.
    + unfold well_formed_arg, well_formed, size in *. simpl.
      rewrite length_zip_with. lia.
    + by exists a, b.
Qed.

(** X14: the result never shows the contents of the freshly allocated
    output array: the call returns the same outcome whatever those
    contents are. *)
Theorem no_uninitialised_entry (u1 u2 : float) (x y : pyval) :
  well_formed_arg x -> well_formed_arg y ->
  __call__ spline ier_of u1 self x y = __call__ spline ier_of u2 self x y.
Proof using Type.
  intros Hx Hy.
  destruct (sanitize_outcome x y Hx Hy)
    as [(e & Hs & _)|[(u & v & Hs & _)|(a & b & Hs & Hr & Hsh & Hwa & Hwb)]].
  - by rewrite !(SurfaceFacts.call_raises _ _ _ _ x y e Hs).
  - by rewrite !(SurfaceFacts.call_on_numbers _ _ _ _ x y u v Hs).
  - pose proof (well_formed_lengths a b Hsh Hwa Hwb) as Hlen.
    by rewrite !(SurfaceFacts.call_on_arrays _ _ _ _ x y a b Hs Hlen).
Qed.

Lemma select_lengths (m : list bool) (xs ys : list float) :
  length xs = length ys -> length (select m xs) = length (select m ys).
Proof.
  revert xs ys. induction m as [|b m IH]; intros [|x xs] [|y ys] H;
    simpl in *; try done.
  destruct b; simpl; auto.
Qed.

Lemma select_some (xs ys : list float) :
  length xs = length ys ->
  existsb negb (zip_with oob xs ys) = true ->
  select (mask xs ys) xs <> [].
Proof.
  revert ys. induction xs as [|x xs IH]; intros [|y ys] Hlen Hany;
    simpl in *; try done.
  unfold in_bounds_mask in *. simpl.
  destruct (oob x y); simpl in *; [|done]. apply IH; [lia|done].
Qed.

(** X15: the status reported by the spline evaluator decides the outcome
    only when it was called.  A query with no point in the domain returns
    without calling it; otherwise status 10 raises [ValueError], any other
    non-zero status raises [TypeError], and status 0 returns, each after
    the one call. *)
Theorem status_decides_outcome (x y x' y' : pyval) :
  well_formed_arg x -> well_formed_arg y ->
  _sanitize_inputs x y = (Ok (x', y'), []) ->
  let xs := data (as_array x') in
  let ys := data (as_array y') in
  let batch := [Bispeu (select (mask xs ys) xs) (select (mask xs ys) ys)] in
  let s := ier_of (select (mask xs ys) xs) (select (mask xs ys) ys) in
  (existsb negb (zip_with oob xs ys) = false ->
   exists out, call x y = (Ok out, []))
  /\
  (existsb negb (zip_with oob xs ys) = true ->
   (s = 10%Z -> call x y = (Raise (ValueError "Invalid input data"), batch)) /\
   (s <> 10%Z -> s <> 0%Z ->
    call x y = (Raise (TypeError "An error occurred"), batch)) /\
   (s = 0%Z -> exists out, call x y = (Ok out, batch))).
Proof.
  intros Hx Hy Hs. cbv zeta.
  assert (exists out,
    call x y = (checked (status (data (as_array x')) (data (as_array y'))) out,
                calls (data (as_array x')) (data (as_array y')))) as [out Hcall].
  { destruct (call_reconciled x y Hx Hy)
      as [(e & He & _)|(xs & ys & out & _ & Hc & _ & Hout)]; [congruence|].
    exists out. destruct out as [w|o].
    - destruct Hout as (u & v & -> & -> & _ & Hs').
      rewrite Hs in Hs'. by injection Hs' as -> ->.
    - destruct Hout as (a & b & -> & -> & _ & Hs' & _).
      rewrite Hs in Hs'. by injection Hs' as -> ->. }
  rewrite Hcall. unfold final_status, spline_calls, checked, check_ier.
  split.
  - intros ->. by exists out.
  - intros ->. split; [|split].
    + intros ->. done.
    + intros H10 H0. apply Z.eqb_neq in H10, H0. by rewrite H10, H0.
    + intros ->. by exists out.
Qed.

(** X16: the spline evaluator is called at most once per query, and when
    it is called it receives a non-empty batch with as many first as second
    coordinates. *)
Theorem one_batched_call (x y : pyval) :
  well_formed_arg x -> well_formed_arg y ->
  snd (call x y) = [] \/
  exists xs ys,
    snd (call x y) = [Bispeu xs ys] /\ xs <> [] /\ length xs = length ys.
Proof.
  intros Hx Hy.
  destruct (call_reconciled x y Hx Hy)
    as [(e & _ & ->)|(xs & ys & out & Hlen & -> & _)]; [by left|].
  simpl. unfold spline_calls.
  destruct (existsb negb (zip_with oob xs ys)) eqn:Hany; [|by left].
  right. eexists _, _. split; [reflexivity|].
  split; [by apply select_some|by apply select_lengths].
Qed.

(** X17: a returned array is well formed, with the reconciled shape of the
    query, and a returned number comes from a query whose arguments are
    both numbers or single-entry arrays. *)
Theorem result_has_reconciled_shape (x y out : pyval) (evs : list event) :
  well_formed_arg x -> well_formed_arg y ->
  call x y = (Ok out, evs) ->
  match out with
  | Num _ => is_number (collapse x) = true /\ is_number (collapse y) = true
  | Arr o => well_formed o /\ reconciled_shape x y = Some (shape o)
  end.
Proof.
  intros Hx Hy Hcall.
  destruct (call_reconciled x y Hx Hy)
    as [(e & _ & He)|(xs & ys & out' & Hlen & Hc & Hwf & Hout)]; [congruence|].
  rewrite Hc in Hcall. injection Hcall as Hchk _.
  assert (out' = out) as <-.
  { unfold checked, check_ier in Hchk.
    destruct (status xs ys =? 10)%Z; [done|].
    destruct (negb (status xs ys =? 0)%Z); [done|]. by injection Hchk. }
  destruct out' as [w|o].
  - destruct Hout as (u & v & _ & _ & _ & Hs).
    destruct (sanitize_outcome x y Hx Hy)
      as [(e & Hs' & _)|[(u' & v' & _ & -> & ->)|(a & b & Hs' & _)]];
      [congruence|done|congruence].
  - destruct Hout as (a & b & _ & _ & -> & _ & Hr). done.
Qed.

(** *** Coordinates that are not numbers *)

Lemma is_nan_spec (u : float) : is_nan u = true -> Prim2SF u = S754_nan.
Proof.
  unfold is_nan. rewrite FloatAxioms.eqb_spec. unfold SFeqb.
  destruct (Prim2SF u) as [[]|[]| |[] m e]; simpl; try done;
    by rewrite Z.compare_refl, Pos.compare_cont_refl.
Qed.

Lemma nan_not_below (u a : float) :
  is_nan u = true -> (u <? a) = false /\ (a <? u) = false.
Proof.
  intros Hu. apply is_nan_spec in Hu. rewrite !ltb_spec, Hu.
  unfold SFltb. split; [done|]. by destruct (Prim2SF a).
Qed.

(** X18: a NaN coordinate is never out of bounds: the point is classified
    by its other coordinate alone, so a point with a NaN first coordinate
    and a second coordinate inside the domain is handed to the spline
    evaluator and does not receive the fill value. *)
Theorem nan_coordinate_is_in_bounds (u v : float) :
  is_nan u = true ->
  oob u v = (v <? y_min self) || (y_max self <? v) /\
  oob v u = (v <? x_min self) || (x_max self <? v) /\
  ((y_min self <=? v) = true -> (v <=? y_max self) = true ->
   call (Num u) (Num v)
   = (checked (ier_of [u] [v]) (Num (spline u v)), [Bispeu [u] [v]])).
Proof.
  intros Hu.
  destruct (nan_not_below u (x_min self) Hu) as [H1 _].
  destruct (nan_not_below u (x_max self) Hu) as [_ H2].
  destruct (nan_not_below u (y_min self) Hu) as [H3 _].
  destruct (nan_not_below u (y_max self) Hu) as [_ H4].
  unfold out_of_bounds. rewrite H1, H2, H3, H4. simpl.
  split; [done|]. split; [by rewrite orb_false_r|].
  intros Hlo Hhi.
  rewrite (SurfaceFacts.call_on_numbers _ _ _ _ (Num u) (Num v) u v eq_refl).
  unfold final_status, spline_calls, point_value, in_bounds_mask, out_of_bounds.
  simpl. rewrite H1, H2.
  rewrite (SurfaceFacts.leb_not_ltb _ _ Hlo), (SurfaceFacts.leb_not_ltb _ _ Hhi).
  reflexivity.
Qed.

End Call.

(** *** Arrays of one shape *)

Lemma stretch_same (s : list nat) (d : list float) :
  length d = product s -> stretch s s d = d.
Proof.
  revert d. induction s as [|a s IH]; intros d Hd; [done|].
  simpl in *. rewrite Nat.eqb_refl.
  rewrite <- (SurfaceFacts.chunks_concat a (product s) d Hd) at 2.
  f_equal. rewrite <- (map_id (chunks a (product s) d)) at 2.
  apply map_ext_Forall.
  eapply Forall_impl; [by apply SurfaceFacts.chunks_lengths|].
  intros c Hc. by apply IH.
Qed.

Lemma broadcast_shapes_same (s : list nat) : broadcast_shapes s s = Some s.
Proof.
  unfold broadcast_shapes.
  by rewrite SurfaceFacts.broadcast_rev_refl, reverse_involutive.
Qed.

(** X19: two arrays of the same shape with more than one entry are paired
    position by position: reconciliation keeps the shape and the order of
    the entries, each entry multiplied by one. *)
Theorem same_shape_arrays_unchanged (a b : ndarray) :
  size a <> 1%nat -> shape a = shape b ->
  well_formed a -> well_formed b ->
  _sanitize_inputs (Arr a) (Arr b)
  = (Ok (Arr (NDArray (shape a) (map (fun v => v * 1) (data a))),
         Arr (NDArray (shape a) (map (fun v => v * 1) (data b)))), []).
Proof.
  intros Hsa Hsh Hwa Hwb.
  assert (size b <> 1%nat) as Hsb by (unfold size in *; congruence).
  pose proof (SurfaceFacts.sanitize_arrays a b Hsa Hsb) as Hs. cbv zeta in Hs.
  simpl in Hs. unfold ndim in Hs.
  rewrite <- Hsh in Hs.
  rewrite (SurfaceFacts.right_padded_same (shape a) (shape a) eq_refl) in Hs.
  rewrite broadcast_shapes_same in Hs. rewrite Hs.
  unfold broadcast_to, ndim. simpl. rewrite Nat.sub_diag. simpl.
  rewrite !stretch_same; [done| |].
  - unfold well_formed, size in Hwb. congruence.
  - exact Hwa.
Qed.

(** *** Exchanging the arguments *)

Lemma broadcast_dim_comm (a b : nat) : broadcast_dim a b = broadcast_dim b a.
Proof.
  unfold broadcast_dim. rewrite (Nat.eqb_sym b a).
  destruct (a =? b)%nat eqn:E; [by apply Nat.eqb_eq in E as ->|].
  destruct (a =? 1)%nat eqn:Ea, (b =? 1)%nat eqn:Eb; try done.
  apply Nat.eqb_eq in Ea, Eb. apply Nat.eqb_neq in E. congruence.
Qed.

Lemma broadcast_rev_comm (s t : list nat) : broadcast_rev s t = broadcast_rev t s.
Proof.
  revert t. induction s as [|a s IH]; intros [|b t]; simpl; try done.
  by rewrite broadcast_dim_comm, IH.
Qed.

Lemma broadcast_shapes_comm (s t : list nat) :
  broadcast_shapes s t = broadcast_shapes t s.
Proof. unfold broadcast_shapes. by rewrite broadcast_rev_comm. Qed.

(** X20: reconciliation treats its two arguments alike: exchanging them
    gives the same reconciled shape, and the one order fails to reconcile
    exactly when the other does. *)
Theorem reconciliation_symmetric (x y : pyval) :
  well_formed_arg x -> well_formed_arg y ->
  reconciled_shape x y = reconciled_shape y x /\
  ((exists e, _sanitize_inputs x y = (Raise e, [])) <->
   (exists e, _sanitize_inputs y x = (Raise e, []))).
Proof.
  intros Hx Hy.
  assert (reconciled_shape x y = reconciled_shape y x) as Hsym.
  { unfold reconciled_shape.
    destruct (collapse x) as [u|a], (collapse y) as [v|b]; try done.
    apply broadcast_shapes_comm. }
  split; [done|].
  assert (forall x y, well_formed_arg x -> well_formed_arg y ->
            (exists e, _sanitize_inputs x y = (Raise e, [])) ->
            is_number (collapse x) = false /\ is_number (collapse y) = false /\
            reconciled_shape x y = None) as Hfail.
  { intros x0 y0 Hx0 Hy0 [e He].
    destruct (sanitize_outcome x0 y0 Hx0 Hy0)
      as [(e' & _ & Hr)|[(u & v & Hs & _)|(a & b & Hs & _)]]; try congruence.
    unfold reconciled_shape in *. unfold _sanitize_inputs in He.
    destruct (collapse x0), (collapse y0); done. }
  assert (forall x y, well_formed_arg x -> well_formed_arg y ->
            reconciled_shape x y = None ->
            is_number (collapse x) = false -> is_number (collapse y) = false ->
            exists e, _sanitize_inputs x y = (Raise e, [])) as Hraise.
  { intros x0 y0 Hx0 Hy0 Hr Hnx Hny.
    destruct (sanitize_outcome x0 y0 Hx0 Hy0)
      as [(e' & Hs & _)|[(u & v & _ & Hu & _)|(a & b & _ & Hr' & _)]].
    - by exists e'.
    - rewrite Hu in Hnx. done.
    - congruence. }
  split; intros H.
  - destruct (Hfail x y Hx Hy H) as (Hnx & Hny & Hr).
    apply Hraise; try done. by rewrite <- Hsym.
  - destruct (Hfail y x Hy Hx H) as (Hny & Hnx & Hr).
    apply Hraise; try done. by rewrite Hsym.
Qed.

(** *** Concrete queries *)

Import Examples Samples.

Lemma no_uninitialised_entry_witness :
  __call__ plane no_error 0 surface (Num 1) (Arr (NDArray [3%nat] [1; 4; 3]))
  = __call__ plane no_error 777 surface (Num 1) (Arr (NDArray [3%nat] [1; 4; 3])).
Proof.
  apply no_uninitialised_entry.
  - exact I.
  - reflexivity.
Defined.

Lemma status_decides_outcome_witness :
  __call__ plane invalid_data 0 surface (Num 1) (Arr (NDArray [2%nat] [1; 4]))
  = (Raise (ValueError "Invalid input data"), [Bispeu [1 * 1] [1]])
  /\
  exists out,
    __call__ plane invalid_data 0 surface (Num 5) (Arr (NDArray [2%nat] [1; 4]))
    = (Ok out, []).
Proof.
  split.
  - destruct (status_decides_outcome plane invalid_data 0 surface
                (Num 1) (Arr (NDArray [2%nat] [1; 4]))
                (Arr (NDArray [2%nat] [1 * 1; 1 * 1])) (Arr (NDArray [2%nat] [1; 4])))
      as [_ Hsome].
    + exact I.
    + reflexivity.
    + reflexivity.
    + destruct Hsome as (H10 & _); [vm_compute; reflexivity|].
      apply H10. reflexivity.
  - destruct (status_decides_outcome plane invalid_data 0 surface
                (Num 5) (Arr (NDArray [2%nat] [1; 4]))
                (Arr (NDArray [2%nat] [5 * 1; 5 * 1])) (Arr (NDArray [2%nat] [1; 4])))
      as [Hnone _].
    + exact I.
    + reflexivity.
    + reflexivity.
    + apply Hnone. vm_compute. reflexivity.
Defined.

Lemma one_batched_call_witness :
  snd (__call__ plane no_error 0 surface (Num 1) (Arr (NDArray [3%nat] [1; 4; 3])))
  = []
  \/
  exists xs ys,
    snd (__call__ plane no_error 0 surface (Num 1)
           (Arr (NDArray [3%nat] [1; 4; 3])))
    = [Bispeu xs ys] /\ xs <> [] /\ length xs = length ys.
Proof.
  apply one_batched_call.
  - exact I.
  - reflexivity.
Defined.

Lemma result_has_reconciled_shape_witness :
  exists o evs,
    __call__ plane no_error 0 surface
      (Arr (NDArray [2%nat; 3%nat] [0; 1; 2; 0; 1; 2]))
      (Arr (NDArray [2%nat] [1; 2]))
    = (Ok (Arr o), evs) /\
    well_formed o /\
    reconciled_shape (Arr (NDArray [2%nat; 3%nat] [0; 1; 2; 0; 1; 2]))
      (Arr (NDArray [2%nat] [1; 2])) = Some (shape o).
Proof.
  destruct (__call__ plane no_error 0 surface
              (Arr (NDArray [2%nat; 3%nat] [0; 1; 2; 0; 1; 2]))
              (Arr (NDArray [2%nat] [1; 2]))) as [[[w|o]| |] evs] eqn:Hc;
    try (vm_compute in Hc; discriminate).
  exists o, evs. split; [reflexivity|].
  apply (result_has_reconciled_shape plane no_error 0 surface _ _ (Arr o) evs).
  - reflexivity.
  - reflexivity.
  - exact Hc.
Defined.

Lemma nan_coordinate_is_in_bounds_witness :
  __call__ plane no_error 0 surface (Num nan) (Num 1)
  = (checked (no_error [nan] [1]) (Num (plane nan 1)), [Bispeu [nan] [1]]).
Proof.
  destruct (nan_coordinate_is_in_bounds plane no_error 0 surface nan 1)
    as (_ & _ & Hcall).
  - reflexivity.
  - apply Hcall; vm_compute; reflexivity.
Defined.

Lemma same_shape_arrays_unchanged_witness :
  _sanitize_inputs (Arr (NDArray [2%nat] [1; 2])) (Arr (NDArray [2%nat] [3; 4]))
  = (Ok (Arr (NDArray [2%nat] (map (fun v => v * 1) [1; 2])),
         Arr (NDArray [2%nat] (map (fun v => v * 1) [3; 4]))), []).
Proof.
  apply (same_shape_arrays_unchanged (NDArray [2%nat] [1; 2]) (NDArray [2%nat] [3; 4])).
  - vm_compute. lia.
  - reflexivity.
  - reflexivity.
  - reflexivity.
Defined.

Lemma reconciliation_symmetric_witness :
  reconciled_shape (Arr (NDArray [2%nat; 3%nat] [0; 1; 2; 0; 1; 2]))
    (Arr (NDArray [2%nat] [1; 2]))
  = reconciled_shape (Arr (NDArray [2%nat] [1; 2]))
      (Arr (NDArray [2%nat; 3%nat] [0; 1; 2; 0; 1; 2])).
Proof.
  destruct (reconciliation_symmetric
              (Arr (NDArray [2%nat; 3%nat] [0; 1; 2; 0; 1; 2]))
              (Arr (NDArray [2%nat] [1; 2]))) as [H _].
  - reflexivity.
  - reflexivity.
  - exact H.
Defined.

End SurfaceProperties.
